(** * Huffman codec of [huff.py]: a shallow embedding and its properties

    The development follows the Python source top down:
    - the Python primitives the codec calls ([int(s, 2)], [bin], slices,
      [str.rjust], [collections.Counter], [heapq]);
    - the classes [Node] and [HuffmanCoding], method by method;
    - the properties of the codec.

    Python values are modelled as follows.  A [str] is a list of characters
    ([ascii]; the codec never looks inside a character, so the size of the
    alphabet plays no role).  A Python [int] is a [Z].  A [bytes] object is
    a list of [byte].  The two dictionaries of a [HuffmanCoding] instance
    are finite maps; the [Counter], whose iteration order decides the
    initial heap, is an association list in insertion order.  Methods that
    mutate [self] take the instance and give the new one back. *)

From Stdlib Require Import ZArith Lia.
From Stdlib.Strings Require Import Ascii String Byte.
From Stdlib Require Import ZifyNat.
From stdpp Require Import base tactics option list gmap strings.

Local Open Scope Z_scope.

(** ** Results of Python computations *)

(** The built-in exceptions the codec can meet, and the error classes that
    the specification names.  [huff.py] defines no exception class and has
    no [raise] statement: the last four constructors are produced by no
    definition below. *)
Inductive exception : Set :=
  | IndexError
  | KeyError
  | ValueError
  | EmptyInputError
  | MissingCodeTableError
  | CorruptStreamError
  | MalformedHeaderError.

(** A computation returns, raises, or is cut off by the bound that the
    model places on a [while] loop.  The theorems show that the last case
    does not arise. *)
Inductive result (A : Type) : Type :=
  | Ok (a : A)
  | Raise (e : exception)
  | OutOfFuel.
Arguments Ok {A} a.
Arguments Raise {A} e.
Arguments OutOfFuel {A}.

Global Instance result_ret : MRet result := λ A a, Ok a.
Global Instance result_bind : MBind result := λ A B f m,
  match m with
  | Ok a => f a
  | Raise e => Raise e
  | OutOfFuel => OutOfFuel
  end.

(** ** Python primitives *)

Abbreviation str := (list ascii).

(** A string literal as a Python [str]. *)
Definition py (s : string) : str := list_ascii_of_string s.

(** [seq[start:stop]], with Python's treatment of negative and
    out-of-range bounds; [None] is an omitted bound. *)
Definition slice_bound (len i : Z) : Z :=
  if i <? 0 then Z.max (i + len) 0 else Z.min i len.

Definition slice {A} (l : list A) (start stop : option Z) : list A :=
  let len := Z.of_nat (length l) in
  let lo := from_option (slice_bound len) 0 start in
  let hi := from_option (slice_bound len) len stop in
  take (Z.to_nat (hi - lo)) (drop (Z.to_nat lo) l).

(** [int(s, 2)] on the strings the codec builds: binary digits only.
    Anything else, and the empty string, is a [ValueError].  Python also
    reads a sign, a [0b] prefix, underscores between digits and blanks
    around the number; these forms are not modelled, and the properties
    below apply [int_2] to strings of binary digits and to the empty
    string only. *)
Definition digit2 (c : ascii) : option Z :=
  if decide (c = "0"%char) then Some 0
  else if decide (c = "1"%char) then Some 1
  else None.

Fixpoint int2_digits (acc : Z) (s : str) : result Z :=
  match s with
  | [] => Ok acc
  | c :: s' =>
      match digit2 c with
      | Some d => int2_digits (2 * acc + d) s'
      | None => Raise ValueError
      end
  end.

Definition int_2 (s : str) : result Z :=
  match s with
  | [] => Raise ValueError
  | _ => int2_digits 0 s
  end.

(** Binary digits of a positive number, most significant first. *)
Fixpoint bin_pos (p : positive) : str :=
  match p with
  | xH => ["1"%char]
  | xO p' => bin_pos p' ++ ["0"%char]
  | xI p' => bin_pos p' ++ ["1"%char]
  end.

(** [bin(n)]: ['0b101'], ['-0b101'], ['0b0']. *)
Definition bin (n : Z) : str :=
  match n with
  | Z0 => py "0b0"
  | Zpos p => py "0b" ++ bin_pos p
  | Zneg p => py "-0b" ++ bin_pos p
  end.

(** [s.rjust(width, fill)]. *)
Definition rjust (s : str) (width : nat) (fill : ascii) : str :=
  replicate (width - length s)%nat fill ++ s.

(** [f"{n:08b}"]: zero padding goes between the sign and the digits. *)
Definition format_08b (n : Z) : str :=
  match n with
  | Z0 => rjust ["0"%char] 8 "0"
  | Zpos p => rjust (bin_pos p) 8 "0"
  | Zneg p => "-"%char :: rjust (bin_pos p) 7 "0"
  end.

(** [range(0, n, 8)] for [n >= 0]. *)
Definition range_by_8 (n : nat) : list Z :=
  (λ k : nat, 8 * Z.of_nat k) <$> seq 0 ((n + 7) / 8)%nat.

(** [bytearray.append(n)]: a [ValueError] outside [range(256)]. *)
Definition bytearray_append (b : list byte) (n : Z) : result (list byte) :=
  if decide (0 <= n) then
    match Byte.of_N (Z.to_N n) with
    | Some x => Ok (b ++ [x])
    | None => Raise ValueError
    end
  else Raise ValueError.

(** Iterating over [bytes] yields ints. *)
Definition byte_value (x : byte) : Z := Z.of_N (Byte.to_N x).

(** *** Dictionaries in insertion order

    [d[k] = v] keeps the position of a key that is already present and
    appends a new key at the end. *)
Section ordered_dict.
Context {K V : Type} `{EqDecision K}.

Fixpoint dict_get (d : list (K * V)) (k : K) (default : V) : V :=
  match d with
  | [] => default
  | (k', v') :: d' => if decide (k = k') then v' else dict_get d' k default
  end.

Fixpoint dict_set (d : list (K * V)) (k : K) (v : V) : list (K * V) :=
  match d with
  | [] => [(k, v)]
  | (k', v') :: d' =>
      if decide (k = k') then (k, v) :: d' else (k', v') :: dict_set d' k v
  end.
End ordered_dict.

(** [Counter(iterable)]: [self[elem] = self.get(elem, 0) + 1] for each
    element in turn. *)
Definition Counter (text : str) : list (ascii * Z) :=
  foldl (λ d c, dict_set d c (dict_get d c 0 + 1)) [] text.

(** *** [heapq]

    The algorithms of the standard library's [heapq.py], on a Python list
    of items compared with their [__lt__].  Positions are list indices;
    the library only forms [pos - 1] under the guard [pos > startpos], so
    they are natural numbers. *)
Module heapq.
Section over_items.
Context {A : Type} (lt : A → A → bool).

(** [heap[i]] and [heap[i] = x] raise [IndexError] out of range. *)
Definition getitem (heap : list A) (i : nat) : result A :=
  match heap !! i with
  | Some x => Ok x
  | None => Raise IndexError
  end.

Definition setitem (heap : list A) (i : nat) (x : A) : result (list A) :=
  if decide (i < length heap)%nat then Ok (<[i:=x]> heap)
  else Raise IndexError.

(** The loop of [_siftdown]: the state is the list and [pos]. *)
Fixpoint _siftdown_loop (fuel : nat) (heap : list A) (startpos pos : nat)
    (newitem : A) : result (list A * nat) :=
  if decide (startpos < pos)%nat then
    match fuel with
    | O => OutOfFuel
    | S fuel' =>
        let parentpos := ((pos - 1) / 2)%nat in
        parent ← getitem heap parentpos;
        if lt newitem parent then
          heap ← setitem heap pos parent;
          _siftdown_loop fuel' heap startpos parentpos newitem
        else Ok (heap, pos)
    end
  else Ok (heap, pos).

Definition _siftdown (heap : list A) (startpos pos : nat)
    : result (list A) :=
  newitem ← getitem heap pos;
  '(heap, pos) ← _siftdown_loop pos heap startpos pos newitem;
  setitem heap pos newitem.

(** The loop of [_siftup]: the state is the list, [pos] and
    [childpos]. *)
Fixpoint _siftup_loop (fuel : nat) (heap : list A) (endpos pos childpos : nat)
    : result (list A * nat) :=
  if decide (childpos < endpos)%nat then
    match fuel with
    | O => OutOfFuel
    | S fuel' =>
        let rightpos := (childpos + 1)%nat in
        childpos ←
          (if decide (rightpos < endpos)%nat then
             c ← getitem heap childpos;
             r ← getitem heap rightpos;
             Ok (if negb (lt c r) then rightpos else childpos)
           else Ok childpos);
        child ← getitem heap childpos;
        heap ← setitem heap pos child;
        _siftup_loop fuel' heap endpos childpos (2 * childpos + 1)%nat
    end
  else Ok (heap, pos).

Definition _siftup (heap : list A) (pos : nat) : result (list A) :=
  let endpos := length heap in
  let startpos := pos in
  newitem ← getitem heap pos;
  '(heap, pos) ← _siftup_loop endpos heap endpos pos (2 * pos + 1)%nat;
  heap ← setitem heap pos newitem;
  _siftdown heap startpos pos.

Definition heappush (heap : list A) (item : A) : result (list A) :=
  let heap := heap ++ [item] in
  _siftdown heap 0 (length heap - 1)%nat.

(** [heap.pop()] raises [IndexError] on the empty list. *)
Definition heappop (heap : list A) : result (A * list A) :=
  match last heap with
  | None => Raise IndexError
  | Some lastelt =>
      let heap := take (length heap - 1)%nat heap in
      match heap with
      | [] => Ok (lastelt, heap)
      | returnitem :: _ =>
          heap ← setitem heap 0 lastelt;
          heap ← _siftup heap 0;
          Ok (returnitem, heap)
      end
  end.

(** [for i in reversed(range(n//2)): _siftup(x, i)]. *)
Definition heapify (x : list A) : result (list A) :=
  let n := length x in
  foldl (λ acc i, x ← acc; _siftup x i) (Ok x) (reverse (seq 0 (n / 2)%nat)).
End over_items.
End heapq.

(** ** [class Node] *)

#[local] Set Warnings "-register-all".

(** [char] is [None] on a merged node; [left] and [right] are [None] on a
    node that [build_heap] makes. *)
Inductive Node : Type :=
  mkNode (char : option ascii) (freq : Z) (left right : option Node).

Definition char (n : Node) : option ascii := let 'mkNode c _ _ _ := n in c.
Definition freq (n : Node) : Z := let 'mkNode _ f _ _ := n in f.
Definition left (n : Node) : option Node := let 'mkNode _ _ l _ := n in l.
Definition right (n : Node) : option Node := let 'mkNode _ _ _ r := n in r.

(** [Node(char, freq)]. *)
Definition Node__init__ (char : option ascii) (freq : Z) : Node :=
  mkNode char freq None None.

(** [Node.__lt__]. *)
Definition Node__lt__ (self other : Node) : bool := freq self <? freq other.

(** Induction on a [Node] through its optional children. *)
Fixpoint Node_children_ind (P : Node → Prop)
    (step : ∀ c f l r,
       from_option P True l → from_option P True r → P (mkNode c f l r))
    (n : Node) : P n :=
  match n with
  | mkNode c f l r =>
      step c f l r
        (match l return from_option P True l with
         | Some x => Node_children_ind P step x
         | None => I
         end)
        (match r return from_option P True r with
         | Some x => Node_children_ind P step x
         | None => I
         end)
  end.

(** ** [class HuffmanCoding] *)

Record HuffmanCoding : Type := mkHuffmanCoding {
  codes : gmap ascii str;
  reverse_mapping : gmap str ascii
}.

Definition __init__ : HuffmanCoding :=
  {| codes := ∅; reverse_mapping := ∅ |}.

Definition build_frequency_dict (text : str) : list (ascii * Z) :=
  Counter text.

Definition build_heap (frequency : list (ascii * Z)) : result (list Node) :=
  let heap := (λ '(char, freq), Node__init__ (Some char) freq) <$> frequency in
  heapq.heapify Node__lt__ heap.

(** [while len(heap) > 1]: each round pops two nodes and pushes one. *)
Fixpoint merge_nodes_loop (fuel : nat) (heap : list Node)
    : result (list Node) :=
  if decide (1 < length heap)%nat then
    match fuel with
    | O => OutOfFuel
    | S fuel' =>
        '(node1, heap) ← heapq.heappop Node__lt__ heap;
        '(node2, heap) ← heapq.heappop Node__lt__ heap;
        let merged := mkNode None (freq node1 + freq node2)
                             (Some node1) (Some node2) in
        heap ← heapq.heappush Node__lt__ heap merged;
        merge_nodes_loop fuel' heap
    end
  else Ok heap.

Definition merge_nodes (heap : list Node) : result Node :=
  heap ← merge_nodes_loop (length heap) heap;
  heapq.getitem heap 0.

(** The two assignments of [build_codes_helper]:
    [self.codes[c] = p; self.reverse_mapping[p] = c]. *)
Definition assign (self : HuffmanCoding) (entry : ascii * str) : HuffmanCoding :=
  {| codes := <[entry.1 := entry.2]> (codes self);
     reverse_mapping := <[entry.2 := entry.1]> (reverse_mapping self) |}.

(** [build_codes_helper] on a node.  The recursion follows the tree, and
    the [None] test of the source is the match on the optional child.  The
    depth of the recursion is the height of the tree, below the number of
    distinct symbols; the interpreter's recursion limit is not modelled. *)
Fixpoint build_codes_node (self : HuffmanCoding) (root : Node)
    (current_code : str) : HuffmanCoding :=
  let 'mkNode char _ left right := root in
  let self :=
    match char with
    | Some c => assign self (c, current_code)
    | None => self
    end in
  let self :=
    match left with
    | Some l => build_codes_node self l (current_code ++ ["0"%char])
    | None => self
    end in
  match right with
  | Some r => build_codes_node self r (current_code ++ ["1"%char])
  | None => self
  end.

Definition build_codes_helper (self : HuffmanCoding) (root : option Node)
    (current_code : str) : HuffmanCoding :=
  match root with
  | None => self
  | Some n => build_codes_node self n current_code
  end.

Definition build_codes (self : HuffmanCoding) (root : Node) : HuffmanCoding :=
  build_codes_helper self (Some root) [].

(** [self.codes[char]] raises [KeyError] on a missing key. *)
Definition get_encoded_text (self : HuffmanCoding) (text : str) : result str :=
  foldl (λ acc char,
           joined ← acc;
           match codes self !! char with
           | Some code => Ok (joined ++ code)
           | None => Raise KeyError
           end) (Ok []) text.

Definition pad_encoded_text (encoded_text : str) : str :=
  let extra_padding := 8 - Z.of_nat (length encoded_text) `mod` 8 in
  let padded_info := format_08b extra_padding in
  padded_info ++ encoded_text ++ replicate (Z.to_nat extra_padding) "0"%char.

(** The packing loop of [compress]. *)
Definition pack_bytes (padded_text : str) : result (list byte) :=
  foldl (λ acc i,
           b ← acc;
           n ← int_2 (slice padded_text (Some i) (Some (i + 8)));
           bytearray_append b n)
        (Ok []) (range_by_8 (length padded_text)).

Definition compress (self : HuffmanCoding) (text : str)
    : result (list byte * Node) * HuffmanCoding :=
  let frequency := build_frequency_dict text in
  match heap ← build_heap frequency; merge_nodes heap with
  | Ok root =>
      let self := build_codes self root in
      (encoded_text ← get_encoded_text self text;
       let padded_text := pad_encoded_text encoded_text in
       b ← pack_bytes padded_text;
       Ok (b, root),
       self)
  | Raise e => (Raise e, self)
  | OutOfFuel => (OutOfFuel, self)
  end.

Definition remove_padding (padded_encoded_text : str) : result str :=
  let padded_info := slice padded_encoded_text None (Some 8) in
  extra_padding ← int_2 padded_info;
  Ok (slice padded_encoded_text (Some 8) (Some (- extra_padding))).

(** The scan of [decode_text]: the loop state is
    [(current_code, decoded_text)]. *)
Definition decode_step (self : HuffmanCoding) (state : str * str) (bit : ascii)
    : str * str :=
  let '(current_code, decoded_text) := state in
  let current_code := current_code ++ [bit] in
  match reverse_mapping self !! current_code with
  | Some c => ([], decoded_text ++ [c])
  | None => (current_code, decoded_text)
  end.

Definition decode_scan (self : HuffmanCoding) (encoded_text : str) : str * str :=
  foldl (decode_step self) ([], []) encoded_text.

Definition decode_text (self : HuffmanCoding) (encoded_text : str) : str :=
  snd (decode_scan self encoded_text).

(** The unpacking loop of [decompress]. *)
Definition unpack_bits (compressed_data : list byte) : str :=
  foldl (λ bit_string byte,
           let bits := rjust (slice (bin (byte_value byte)) (Some 2) None)
                             8 "0" in
           bit_string ++ bits) [] compressed_data.

Definition decompress (self : HuffmanCoding) (compressed_data : list byte)
    : result str :=
  let bit_string := unpack_bits compressed_data in
  actual_text ← remove_padding bit_string;
  Ok (decode_text self actual_text).

(** ** Vocabulary of the properties *)

(** The assignments that [build_codes_node] makes, in the order in which
    it makes them. *)
Fixpoint tree_codes (root : Node) (current_code : str) : list (ascii * str) :=
  let 'mkNode char _ left right := root in
  match char with Some c => [(c, current_code)] | None => [] end
  ++ match left with
     | Some l => tree_codes l (current_code ++ ["0"%char])
     | None => []
     end
  ++ match right with
     | Some r => tree_codes r (current_code ++ ["1"%char])
     | None => []
     end.

(** The characters a tree carries, left to right. *)
Definition leaves (root : Node) : list ascii := (tree_codes root []).*1.

(** The shape of the trees that [merge_nodes] handles: a leaf has a
    character and no child, a merged node has two children and no
    character. *)
Inductive huffman_tree : Node → Prop :=
  | huffman_leaf c f : huffman_tree (mkNode (Some c) f None None)
  | huffman_merged f l r :
      huffman_tree l → huffman_tree r →
      huffman_tree (mkNode None f (Some l) (Some r)).

(** [leaf_path root c p]: descending from [root] along [p], '0' to the
    left and '1' to the right, ends on a node that carries [c]. *)
Inductive leaf_path : Node → ascii → str → Prop :=
  | path_here c f l r : leaf_path (mkNode (Some c) f l r) c []
  | path_left ch f l r c p :
      leaf_path l c p → leaf_path (mkNode ch f (Some l) r) c ("0"%char :: p)
  | path_right ch f l r c p :
      leaf_path r c p → leaf_path (mkNode ch f l (Some r)) c ("1"%char :: p).

Definition is_bit (c : ascii) : Prop := c = "0"%char ∨ c = "1"%char.

(** No code of the table is a prefix of a different code. *)
Definition prefix_free (codes : gmap ascii str) : Prop :=
  ∀ c1 c2 p1 p2,
    codes !! c1 = Some p1 → codes !! c2 = Some p2 → p1 `prefix_of` p2 →
    p1 = p2.

(** The text has at least two distinct symbols. *)
Definition two_symbols (text : str) : Prop :=
  ∃ a b, a ∈ text ∧ b ∈ text ∧ a ≠ b.

(** The concatenation of the codes of the symbols of [text]. *)
Definition encoding (self : HuffmanCoding) (text : str) : str :=
  text ≫= λ c, default [] (codes self !! c).

Global Instance is_bit_dec c : Decision (is_bit c).
Proof. unfold is_bit. apply _. Defined.

(** The eight characters that [decompress] makes of one byte. *)
Definition byte_bits (x : byte) : str :=
  rjust (slice (bin (byte_value x)) (Some 2) None) 8 "0".

(** The payload that [remove_padding] keeps of a buffer with first byte
    [hd]: the bits of the other bytes without the last [hd] of them, and
    nothing when [hd] is 0. *)
Definition payload_bits (hd : byte) (tl : list byte) : str :=
  if decide (byte_value hd = 0) then []
  else take (Z.to_nat (8 * Z.of_nat (length tl) - byte_value hd))
            (unpack_bits tl).

(** [c] has the code [p], and the scan recognises [p] and nothing
    shorter on the way. *)
Definition decodable (self : HuffmanCoding) (c : ascii) (p : str) : Prop :=
  codes self !! c = Some p ∧ p ≠ []
  ∧ reverse_mapping self !! p = Some c
  ∧ ∀ q, q ≠ [] → q `prefix_of` p → q ≠ p → reverse_mapping self !! q = None.

(** *** Heap order *)

(** The parent of position [i] in the array layout of [heapq]. *)
Definition parent (i : nat) : nat := ((i - 1) / 2)%nat.

(** Every item at a position whose parent is at [k] or beyond is not
    smaller than its parent. *)
Definition heap_from {A} (key : A → Z) (k : nat) (heap : list A) : Prop :=
  ∀ i x p,
    (0 < i)%nat → (k ≤ parent i)%nat →
    heap !! i = Some x → heap !! parent i = Some p → key p ≤ key x.

(** The invariant of [heapq]: no item is smaller than its parent. *)
Definition is_heap {A} (key : A → Z) (heap : list A) : Prop :=
  heap_from key 0 heap.

(** [below k i]: position [i] is [k] or lies under [k] in the tree that
    the array lays out. *)
Inductive below (k : nat) : nat → Prop :=
  | below_here : below k k
  | below_child i : (0 < i)%nat → below k (parent i) → below k i.

(** *** Huffman's construction *)

(** The greedy construction on a forest, without the heap: while more
    than one tree is left, take a tree [node1] of least frequency, then a
    tree [node2] of least frequency among the others, and put back a node
    with [node1] to the left, [node2] to the right and the sum of their
    frequencies.  The forest is a list up to the order of its trees. *)
Inductive huffman_merge : list Node → Node → Prop :=
  | huffman_merge_done root : huffman_merge [root] root
  | huffman_merge_step forest node1 node2 rest forest' root :
      forest ≡ₚ node1 :: node2 :: rest →
      (∀ n, n ∈ forest → freq node1 ≤ freq n) →
      (∀ n, n ∈ node2 :: rest → freq node2 ≤ freq n) →
      forest' ≡ₚ mkNode None (freq node1 + freq node2)
                        (Some node1) (Some node2) :: rest →
      huffman_merge forest' root →
      huffman_merge forest root.

(** The leaves that [build_heap] makes of a frequency table. *)
Definition leaf_nodes (frequency : list (ascii * Z)) : list Node :=
  (λ '(char, freq), Node__init__ (Some char) freq) <$> frequency.

(** The characters of a tree with the frequencies their nodes carry, left
    to right. *)
Fixpoint leaf_items (root : Node) : list (ascii * Z) :=
  let 'mkNode char freq left right := root in
  match char with Some c => [(c, freq)] | None => [] end
  ++ match left with Some l => leaf_items l | None => [] end
  ++ match right with Some r => leaf_items r | None => [] end.

(** A tree of leaves and merged nodes in which every merged node carries
    the sum of the frequencies of its two children. *)
Inductive weighted : Node → Prop :=
  | weighted_leaf c f : weighted (mkNode (Some c) f None None)
  | weighted_merged f l r :
      weighted l → weighted r → f = freq l + freq r →
      weighted (mkNode None f (Some l) (Some r)).

(** The sum of the frequencies at the roots of a forest. *)
Definition total_freq (forest : list Node) : Z :=
  foldr (λ n acc, freq n + acc) 0 forest.

(** The number of occurrences of [c] in [text]. *)
Definition occurrences (c : ascii) (text : str) : Z :=
  Z.of_nat (length (filter (c =.) text)).

(** The sum over a frequency table of each symbol's frequency times
    [g] of the symbol. *)
Definition weighted_sum (g : ascii → Z) (frequency : list (ascii * Z)) : Z :=
  foldr (λ '(c, f) acc, f * g c + acc) 0 frequency.

(** The number of bits of the code that the tables give [c]. *)
Definition code_length (self : HuffmanCoding) (c : ascii) : Z :=
  Z.of_nat (length (default [] (codes self !! c))).

(** [merged_path root p]: descending from [root] along [p] ends on a
    merged node. *)
Inductive merged_path : Node → str → Prop :=
  | merged_here f l r : merged_path (mkNode None f (Some l) (Some r)) []
  | merged_left f l r p :
      merged_path l p →
      merged_path (mkNode None f (Some l) (Some r)) ("0"%char :: p)
  | merged_right f l r p :
      merged_path r p →
      merged_path (mkNode None f (Some l) (Some r)) ("1"%char :: p).

(** The number of nodes without a character. *)
Fixpoint merged_nodes (root : Node) : nat :=
  let 'mkNode char _ left right := root in
  (match char with Some _ => 0 | None => 1 end
   + match left with Some l => merged_nodes l | None => 0 end
   + match right with Some r => merged_nodes r | None => 0 end)%nat.

(** * Properties *)

(** ** The result monad *)

Lemma bind_Ok {A B} (f : A → result B) (a : A) : (Ok a ≫= f) = f a.
Proof. reflexivity. Qed.

(** ** The heap operations rearrange the list *)

Section heap_permutation.
Context {A : Type} (lt : A → A → bool).
Implicit Types (heap : list A) (x y : A).

Lemma getitem_lookup heap i x : heap !! i = Some x → heapq.getitem heap i = Ok x.
Proof. unfold heapq.getitem. by intros ->. Qed.

Lemma setitem_lt heap i x :
  (i < length heap)%nat → heapq.setitem heap i x = Ok (<[i:=x]> heap).
Proof. unfold heapq.setitem. intros. by rewrite decide_True. Qed.

(** Overwriting position [i] trades the old item for the new one. *)
Lemma insert_Permutation heap i y :
  (i < length heap)%nat → <[i:=y]> heap ≡ₚ y :: delete i heap.
Proof.
  revert i. induction heap as [|a heap IH]; intros [|i] Hi; simpl in *;
    try lia; [done|].
  rewrite (IH i) by lia. apply Permutation_swap.
Qed.

Lemma delete_insert_other heap i j y :
  i ≠ j → heap !! j = Some y → (i < length heap)%nat →
  delete j (<[i:=y]> heap) ≡ₚ delete i heap.
Proof.
  intros Hne Hj Hi. apply (Permutation_cons_inv (a := y)).
  rewrite <- (delete_Permutation (<[i:=y]> heap) j y)
    by (by rewrite list_lookup_insert_ne).
  by apply insert_Permutation.
Qed.

(** The loop of [_siftdown] ends within [pos] rounds and moves the hole
    without changing the other items. *)
Lemma _siftdown_loop_spec fuel heap startpos pos newitem :
  (pos ≤ fuel)%nat → (pos < length heap)%nat →
  ∃ heap' pos',
    heapq._siftdown_loop lt fuel heap startpos pos newitem = Ok (heap', pos')
    ∧ length heap' = length heap ∧ (pos' < length heap)%nat
    ∧ delete pos' heap' ≡ₚ delete pos heap.
Proof.
  revert heap pos. induction fuel as [|fuel IH]; intros heap pos Hfuel Hpos;
    cbn [heapq._siftdown_loop]; case_decide; try lia; eauto 10.
  assert ((pos - 1) / 2 < pos)%nat as Hparent.
  { apply Nat.Div0.div_lt_upper_bound. lia. }
  destruct (lookup_lt_is_Some_2 heap ((pos - 1) / 2)) as [parent Hp]; [lia|].
  destruct (lookup_lt_is_Some_2 heap pos) as [x Hx]; [lia|].
  rewrite (getitem_lookup _ _ _ Hp), bind_Ok.
  destruct (lt newitem parent); [|eauto 10].
  rewrite setitem_lt, bind_Ok by done.
  destruct (IH (<[pos:=parent]> heap) ((pos - 1) / 2)%nat)
    as (heap' & pos' & -> & Hlen & Hpos' & Hperm);
    [lia|rewrite length_insert; lia|].
  rewrite length_insert in Hlen, Hpos'.
  exists heap', pos'. repeat split; try done.
  rewrite Hperm. apply delete_insert_other; [lia|done..].
Qed.

Lemma _siftdown_spec heap startpos pos :
  (pos < length heap)%nat →
  ∃ heap', heapq._siftdown lt heap startpos pos = Ok heap' ∧ heap' ≡ₚ heap.
Proof.
  intros Hpos. unfold heapq._siftdown.
  destruct (lookup_lt_is_Some_2 heap pos) as [newitem Hx]; [done|].
  rewrite (getitem_lookup _ _ _ Hx), bind_Ok.
  destruct (_siftdown_loop_spec pos heap startpos pos newitem)
    as (heap' & pos' & -> & Hlen & Hpos' & Hperm); [lia|done|].
  rewrite bind_Ok, setitem_lt by lia. eexists; split; [done|].
  rewrite insert_Permutation, Hperm by lia.
  by rewrite <- delete_Permutation.
Qed.

(** The loop of [_siftup] ends within [endpos - childpos] rounds. *)
Lemma _siftup_loop_spec fuel heap pos childpos :
  (length heap - childpos ≤ fuel)%nat → (pos < childpos)%nat →
  (pos < length heap)%nat →
  ∃ heap' pos',
    heapq._siftup_loop lt fuel heap (length heap) pos childpos
      = Ok (heap', pos')
    ∧ length heap' = length heap ∧ (pos' < length heap)%nat
    ∧ delete pos' heap' ≡ₚ delete pos heap.
Proof.
  revert heap pos childpos.
  induction fuel as [|fuel IH]; intros heap pos childpos Hfuel Hchild Hpos;
    cbn [heapq._siftup_loop]; case_decide; try lia; eauto 10.
  destruct (lookup_lt_is_Some_2 heap pos) as [x Hx]; [lia|].
  assert (∃ c, (childpos ≤ c)%nat ∧ (c < length heap)%nat ∧
    (if decide (childpos + 1 < length heap)%nat
     then c0 ← heapq.getitem heap childpos;
          r ← heapq.getitem heap (childpos + 1);
          Ok (if negb (lt c0 r) then (childpos + 1)%nat else childpos)
     else Ok childpos) = Ok c) as (c & Hc1 & Hc2 & ->).
  { case_decide; [|eauto].
    destruct (lookup_lt_is_Some_2 heap childpos) as [c0 Hc0]; [lia|].
    destruct (lookup_lt_is_Some_2 heap (childpos + 1)) as [r Hr]; [lia|].
    rewrite (getitem_lookup _ _ _ Hc0), bind_Ok.
    rewrite (getitem_lookup _ _ _ Hr), bind_Ok.
    destruct (negb (lt c0 r)); eexists; (split; [|split; [|done]]); lia. }
  destruct (lookup_lt_is_Some_2 heap c) as [child Hchildc]; [lia|].
  rewrite bind_Ok, (getitem_lookup _ _ _ Hchildc), bind_Ok.
  rewrite setitem_lt, bind_Ok by done.
  pose proof (IH (<[pos:=child]> heap) c (2 * c + 1)%nat) as IH'.
  rewrite length_insert in IH'.
  destruct IH' as (heap' & pos' & -> & Hlen & Hpos' & Hperm); [lia..|].
  exists heap', pos'. repeat split; try done.
  rewrite Hperm. apply delete_insert_other; [lia|done..].
Qed.

Lemma _siftup_spec heap pos :
  (pos < length heap)%nat →
  ∃ heap', heapq._siftup lt heap pos = Ok heap' ∧ heap' ≡ₚ heap.
Proof.
  intros Hpos. unfold heapq._siftup.
  destruct (lookup_lt_is_Some_2 heap pos) as [newitem Hx]; [done|].
  rewrite (getitem_lookup _ _ _ Hx), bind_Ok.
  destruct (_siftup_loop_spec (length heap) heap pos (2 * pos + 1))
    as (heap' & pos' & -> & Hlen & Hpos' & Hperm); [lia..|].
  rewrite bind_Ok, setitem_lt, bind_Ok by lia.
  destruct (_siftdown_spec (<[pos':=newitem]> heap') pos pos')
    as (heap'' & -> & Hperm'); [rewrite length_insert; lia|].
  eexists; split; [done|].
  rewrite Hperm', insert_Permutation, Hperm by lia.
  by rewrite <- delete_Permutation.
Qed.

Lemma heappush_spec heap item :
  ∃ heap', heapq.heappush lt heap item = Ok heap' ∧ heap' ≡ₚ item :: heap.
Proof.
  unfold heapq.heappush.
  destruct (_siftdown_spec (heap ++ [item]) 0 (length (heap ++ [item]) - 1))
    as (heap' & -> & Hperm); [rewrite length_app; simpl; lia|].
  eexists; split; [done|]. by rewrite Hperm, Permutation_app_comm.
Qed.

Lemma heappop_spec heap :
  heap ≠ [] →
  ∃ item heap', heapq.heappop lt heap = Ok (item, heap')
                ∧ heap ≡ₚ item :: heap'.
Proof.
  intros Hne. unfold heapq.heappop.
  destruct (last heap) as [lastelt|] eqn:Hlast; [|by apply last_None in Hlast].
  apply last_Some in Hlast as [init ->].
  rewrite length_app, take_app_length' by (simpl; lia).
  destruct init as [|returnitem init].
  { by exists lastelt, []. }
  rewrite setitem_lt, bind_Ok by (simpl; lia). simpl.
  destruct (_siftup_spec (lastelt :: init) 0) as (heap' & -> & Hperm);
    [simpl; lia|].
  rewrite bind_Ok. exists returnitem, heap'. split; [done|].
  rewrite Hperm. simpl. f_equiv. apply Permutation_app_comm.
Qed.

Lemma heapify_spec (l : list A) :
  ∃ heap, heapq.heapify lt l = Ok heap ∧ heap ≡ₚ l.
Proof.
  unfold heapq.heapify.
  assert (Forall (λ i, i < length l)%nat (reverse (seq 0 (length l / 2))))
    as Hidx.
  { apply Forall_forall. intros i [_ Hi]%elem_of_reverse%elem_of_seq.
    pose proof (Nat.Div0.div_le_upper_bound (length l) 2 (length l)). lia. }
  revert Hidx. generalize (reverse (seq 0 (length l / 2))). intros idx.
  cut (∀ heap, heap ≡ₚ l → Forall (λ i, i < length l)%nat idx →
         ∃ heap', foldl (λ acc i, x ← acc; heapq._siftup lt x i)
                        (Ok heap) idx = Ok heap' ∧ heap' ≡ₚ l).
  { intros Hcut. by apply Hcut. }
  induction idx as [|i idx IH]; intros heap Hperm Hidx.
  { by exists heap. }
  apply Forall_cons in Hidx as [Hi Hidx]. simpl.
  destruct (_siftup_spec heap i) as (heap' & -> & Hperm');
    [by rewrite Hperm|].
  apply IH; [by rewrite Hperm'|done].
Qed.
End heap_permutation.

(** ** Trees and their codes *)

(** [build_codes_helper] as the source writes it: nothing on [None], else
    the assignment at a node that has a character, then the left child,
    then the right child. *)
Lemma build_codes_helper_unfold self root current_code :
  build_codes_helper self root current_code
  = match root with
    | None => self
    | Some root =>
        let self :=
          match char root with
          | Some c => assign self (c, current_code)
          | None => self
          end in
        let self :=
          build_codes_helper self (left root) (current_code ++ ["0"%char]) in
        build_codes_helper self (right root) (current_code ++ ["1"%char])
    end.
Proof. by destruct root as [[[c|] f [l|] [r|]]|]. Qed.

Lemma build_codes_node_assign root : ∀ self current_code,
  build_codes_node self root current_code
  = foldl assign self (tree_codes root current_code).
Proof.
  induction root as [c f l r IHl IHr] using Node_children_ind.
  intros self cur. cbn [build_codes_node tree_codes].
  rewrite !foldl_app.
  destruct r as [r|], l as [l|], c as [c|]; simpl in *;
    rewrite ?IHl, ?IHr; done.
Qed.

Lemma build_codes_assign self root :
  build_codes self root = foldl assign self (tree_codes root []).
Proof. apply build_codes_node_assign. Qed.

Lemma tree_codes_prefix root : ∀ current_code,
  tree_codes root current_code
  = prod_map id (app current_code) <$> tree_codes root [].
Proof.
  induction root as [c f l r IHl IHr] using Node_children_ind.
  intros cur. cbn [tree_codes]. rewrite !fmap_app.
  f_equal; [|f_equal].
  - destruct c; simpl; [|done]. by rewrite app_nil_r.
  - destruct l as [l|]; simpl in *; [|done].
    rewrite (IHl (cur ++ _)), (IHl [_]), <- list_fmap_compose.
    apply list_fmap_ext. intros _ [a p] _. simpl. by rewrite <- app_assoc.
  - destruct r as [r|]; simpl in *; [|done].
    rewrite (IHr (cur ++ _)), (IHr [_]), <- list_fmap_compose.
    apply list_fmap_ext. intros _ [a p] _. simpl. by rewrite <- app_assoc.
Qed.

Lemma tree_codes_chars root current_code :
  (tree_codes root current_code).*1 = leaves root.
Proof.
  unfold leaves. rewrite (tree_codes_prefix root current_code).
  rewrite <- list_fmap_compose. apply list_fmap_ext. by intros _ [a p] _.
Qed.

Lemma leaves_merged f l r :
  leaves (mkNode None f (Some l) (Some r)) = leaves l ++ leaves r.
Proof.
  unfold leaves at 1. cbn [tree_codes]. simpl.
  by rewrite fmap_app, !tree_codes_chars.
Qed.

(** [tree_codes] lists the root-to-leaf paths. *)
Lemma tree_codes_leaf_path root : ∀ c p,
  (c, p) ∈ tree_codes root [] ↔ leaf_path root c p.
Proof.
  induction root as [ch f l r IHl IHr] using Node_children_ind.
  intros c p. cbn [tree_codes]. rewrite !elem_of_app. split.
  - intros [Hc|[Hl|Hr]].
    + destruct ch; [|by apply elem_of_nil in Hc].
      apply list_elem_of_singleton in Hc as [= -> ->]. constructor.
    + destruct l as [l|]; [|by apply elem_of_nil in Hl]. simpl in *.
      rewrite tree_codes_prefix in Hl.
      apply list_elem_of_fmap in Hl as ([c' p'] & [= -> ->] & Hl).
      apply path_left. by apply IHl.
    + destruct r as [r|]; [|by apply elem_of_nil in Hr]. simpl in *.
      rewrite tree_codes_prefix in Hr.
      apply list_elem_of_fmap in Hr as ([c' p'] & [= -> ->] & Hr).
      apply path_right. by apply IHr.
  - inversion 1; subst.
    + left. apply list_elem_of_singleton. done.
    + right; left. simpl in *. rewrite tree_codes_prefix.
      apply list_elem_of_fmap. eexists (_, _). split; [done|]. by apply IHl.
    + right; right. simpl in *. rewrite tree_codes_prefix.
      apply list_elem_of_fmap. eexists (_, _). split; [done|]. by apply IHr.
Qed.

(** In a tree of [merge_nodes], a path that extends the path of a leaf is
    that path, and leads to that leaf. *)
Lemma leaf_path_prefix root :
  huffman_tree root →
  ∀ c1 p1 c2 p2, leaf_path root c1 p1 → leaf_path root c2 p2 →
                 p1 `prefix_of` p2 → p1 = p2 ∧ c1 = c2.
Proof.
  induction 1 as [c f|f l r Hl IHl Hr IHr]; intros c1 p1 c2 p2 H1 H2 Hpre.
  - inversion H1; inversion H2; by subst.
  - inversion H1; inversion H2; subst;
      apply prefix_cons_inv_1 in Hpre as Heq; try discriminate;
      apply prefix_cons_inv_2 in Hpre.
    + match goal with
      | Ha : leaf_path l c1 _, Hb : leaf_path l c2 _ |- _ =>
          destruct (IHl _ _ _ _ Ha Hb Hpre)
      end. by subst.
    + match goal with
      | Ha : leaf_path r c1 _, Hb : leaf_path r c2 _ |- _ =>
          destruct (IHr _ _ _ _ Ha Hb Hpre)
      end. by subst.
Qed.

Lemma leaf_path_bits root c p : leaf_path root c p → Forall is_bit p.
Proof.
  induction 1; constructor; try done; [by left|by right].
Qed.

(** ** The frequency table *)

Lemma dict_set_keys {V} (d : list (ascii * V)) k v :
  (dict_set d k v).*1 = if decide (k ∈ d.*1) then d.*1 else d.*1 ++ [k].
Proof.
  induction d as [|[k' v'] d IH]; [done|]. cbn [dict_set fmap list_fmap fst].
  destruct (decide (k = k')) as [->|Hne]; cbn [fmap list_fmap fst].
  { rewrite decide_True; [done|]. apply list_elem_of_here. }
  rewrite IH. destruct (decide (k ∈ d.*1)).
  - rewrite decide_True; [done|]. by apply list_elem_of_further.
  - rewrite decide_False; [done|]. by intros [?|?]%elem_of_cons.
Qed.

Lemma Counter_fold_keys text : ∀ d : list (ascii * Z),
  NoDup d.*1 →
  let d' := foldl (λ d c, dict_set d c (dict_get d c 0 + 1)) d text in
  NoDup d'.*1 ∧ ∀ c, c ∈ d'.*1 ↔ c ∈ d.*1 ∨ c ∈ text.
Proof.
  induction text as [|a text IH]; intros d Hd; simpl.
  { split; [done|]. intros c. rewrite elem_of_nil. tauto. }
  destruct (IH (dict_set d a (dict_get d a 0 + 1))) as [Hnd Hel].
  { rewrite dict_set_keys. case_decide; [done|].
    apply NoDup_app. repeat split; [done| |apply NoDup_singleton].
    intros x Hx ->%list_elem_of_singleton. done. }
  split; [done|]. intros c. rewrite Hel, dict_set_keys, elem_of_cons.
  case_decide as Ha; [|rewrite elem_of_app, list_elem_of_singleton];
    intuition (subst; auto).
Qed.

Lemma Counter_keys text :
  NoDup (Counter text).*1 ∧ ∀ c, c ∈ (Counter text).*1 ↔ c ∈ text.
Proof.
  destruct (Counter_fold_keys text []) as [Hnd Hel]; [constructor|].
  split; [done|]. intros c. unfold Counter. rewrite Hel, elem_of_nil. tauto.
Qed.

(** ** Tree construction *)

Lemma build_heap_spec frequency :
  ∃ heap, build_heap frequency = Ok heap
          ∧ Forall huffman_tree heap
          ∧ length heap = length frequency
          ∧ heap ≫= leaves ≡ₚ frequency.*1.
Proof.
  unfold build_heap.
  destruct (heapify_spec Node__lt__
    ((λ '(char, freq), Node__init__ (Some char) freq) <$> frequency))
    as (heap & -> & Hperm).
  exists heap. split; [done|]. split; [|split].
  - apply (Permutation_Forall (Permutation_sym Hperm)).
    apply Forall_fmap, Forall_forall. intros [c f] _. constructor.
  - by rewrite (Permutation_length Hperm), length_fmap.
  - rewrite (bind_Permutation leaves _ _ Hperm). clear. induction frequency as [|[c f] d IH]; [done|].
    simpl. by rewrite IH.
Qed.

(** The loop ends within [length heap - 1] rounds with one tree that
    carries the characters of the whole heap. *)
Lemma merge_nodes_loop_spec fuel : ∀ heap,
  Forall huffman_tree heap → heap ≠ [] → (length heap ≤ S fuel)%nat →
  ∃ root, merge_nodes_loop fuel heap = Ok [root]
          ∧ huffman_tree root
          ∧ leaves root ≡ₚ heap ≫= leaves
          ∧ ((1 < length heap)%nat → char root = None)
          ∧ (length heap = 1%nat → heap = [root]).
Proof.
  induction fuel as [|fuel IH]; intros heap Hwf Hne Hlen;
    cbn [merge_nodes_loop]; case_decide as Hlong.
  - lia.
  - destruct heap as [|root [|??]]; simpl in *; try done; try lia.
    exists root. apply Forall_cons in Hwf as [Hroot _].
    repeat split; try done; try lia. by rewrite app_nil_r.
  - destruct (heappop_spec Node__lt__ heap Hne) as (node1 & heap1 & -> & H1).
    rewrite bind_Ok.
    assert (length heap = S (length heap1)) as Hlen1 by (by rewrite H1).
    destruct (heappop_spec Node__lt__ heap1) as (node2 & heap2 & -> & H2).
    { intros ->. simpl in *. lia. }
    rewrite bind_Ok.
    assert (length heap1 = S (length heap2)) as Hlen2 by (by rewrite H2).
    set (merged := mkNode None (freq node1 + freq node2)
                          (Some node1) (Some node2)).
    destruct (heappush_spec Node__lt__ heap2 merged) as (heap3 & -> & H3).
    rewrite bind_Ok.
    assert (length heap3 = S (length heap2)) as Hlen3 by (by rewrite H3).
    rewrite H1, H2 in Hwf.
    apply Forall_cons in Hwf as [Hnode1 [Hnode2 Hwf]%Forall_cons].
    destruct (IH heap3) as (root & -> & Hroot & Hleaves & Hmerged & Hone).
    { rewrite H3. constructor; [by constructor|done]. }
    { intros ->. simpl in *. lia. }
    { lia. }
    exists root. repeat split; try done.
    + rewrite Hleaves, H3, H1, H2. cbn [mbind list_bind]. unfold merged.
      by rewrite leaves_merged, <- app_assoc.
    + intros _. destruct (decide (1 < length heap3)%nat); [by apply Hmerged|].
      assert (heap3 = [root]) as -> by (apply Hone; lia).
      symmetry in H3. apply Permutation_singleton_r in H3.
      by injection H3 as <- _.
    + lia.
  - destruct heap as [|root [|??]]; simpl in *; try done; try lia.
    exists root. apply Forall_cons in Hwf as [Hroot _].
    repeat split; try done; try lia. by rewrite app_nil_r.
Qed.

Lemma merge_nodes_spec heap :
  Forall huffman_tree heap → heap ≠ [] →
  ∃ root, merge_nodes heap = Ok root
          ∧ huffman_tree root
          ∧ leaves root ≡ₚ heap ≫= leaves
          ∧ ((1 < length heap)%nat → char root = None)
          ∧ (length heap = 1%nat → heap = [root]).
Proof.
  intros Hwf Hne. unfold merge_nodes.
  destruct (merge_nodes_loop_spec (length heap) heap)
    as (root & -> & ?); [done|done|lia|].
  rewrite bind_Ok. by exists root.
Qed.

Lemma two_elements_length {A} (l : list A) a b :
  a ∈ l → b ∈ l → a ≠ b → (1 < length l)%nat.
Proof.
  destruct l as [|x [|y l]]; simpl; intros Ha Hb Hne; [|exfalso|lia].
  - by apply elem_of_nil in Ha.
  - apply list_elem_of_singleton in Ha, Hb. congruence.
Qed.

(** The tree that [compress] builds for a text that is not empty: it
    carries each symbol of the text once, and its root is a merged node
    as soon as two symbols differ. *)
Lemma compress_tree text :
  text ≠ [] →
  ∃ root, (heap ← build_heap (build_frequency_dict text); merge_nodes heap)
            = Ok root
          ∧ huffman_tree root
          ∧ NoDup (leaves root)
          ∧ (∀ c, c ∈ leaves root ↔ c ∈ text)
          ∧ (two_symbols text → char root = None).
Proof.
  intros Htext. unfold build_frequency_dict.
  destruct (Counter_keys text) as [Hnd Hel].
  destruct (build_heap_spec (Counter text))
    as (heap & -> & Hwf & Hlen & Hperm).
  rewrite bind_Ok. rewrite <- (length_fmap fst) in Hlen.
  destruct (merge_nodes_spec heap Hwf)
    as (root & -> & Hroot & Hleaves & Hmerged & _).
  { destruct text as [|c text]; [done|]. intros ->.
    assert (c ∈ (Counter (c :: text)).*1) as Hc by (apply Hel; left).
    destruct (Counter (c :: text)).*1; [by apply elem_of_nil in Hc|done]. }
  rewrite Hperm in Hleaves.
  exists root. repeat split; try done.
  - by rewrite Hleaves.
  - rewrite Hleaves. apply Hel.
  - rewrite Hleaves. apply Hel.
  - intros (a & b & Ha & Hb & Hne). apply Hmerged. rewrite Hlen.
    apply (two_elements_length _ a b); [by apply Hel..|done].
Qed.

(** ** The tables after a run of assignments *)

Lemma foldl_assign_codes l : ∀ self c p,
  (c, p) ∈ l → (∀ p', (c, p') ∈ l → p' = p) →
  codes (foldl assign self l) !! c = Some p.
Proof.
  induction l as [|[c0 p0] l IH] using rev_ind; intros self c p Hin Hfun.
  { by apply elem_of_nil in Hin. }
  rewrite foldl_snoc. simpl. destruct (decide (c0 = c)) as [->|Hne].
  - rewrite (Hfun p0), lookup_insert_eq; [done|].
    apply elem_of_app. right. apply list_elem_of_singleton. done.
  - rewrite lookup_insert_ne by done. apply IH.
    + apply elem_of_app in Hin as [?|[=]%list_elem_of_singleton]; done.
    + intros p' Hp'. apply Hfun, elem_of_app. by left.
Qed.

Lemma foldl_assign_reverse l : ∀ self c p,
  (c, p) ∈ l → (∀ c', (c', p) ∈ l → c' = c) →
  reverse_mapping (foldl assign self l) !! p = Some c.
Proof.
  induction l as [|[c0 p0] l IH] using rev_ind; intros self c p Hin Hfun.
  { by apply elem_of_nil in Hin. }
  rewrite foldl_snoc. simpl. destruct (decide (p0 = p)) as [->|Hne].
  - rewrite (Hfun c0), lookup_insert_eq; [done|].
    apply elem_of_app. right. apply list_elem_of_singleton. done.
  - rewrite lookup_insert_ne by done. apply IH.
    + apply elem_of_app in Hin as [?|[=]%list_elem_of_singleton]; done.
    + intros c' Hc'. apply Hfun, elem_of_app. by left.
Qed.

(** Keys that the run does not assign keep their entry. *)
Lemma foldl_assign_codes_other l : ∀ self c,
  c ∉ l.*1 → codes (foldl assign self l) !! c = codes self !! c.
Proof.
  induction l as [|[c0 p0] l IH] using rev_ind; intros self c Hc; [done|].
  rewrite fmap_app, elem_of_app in Hc.
  rewrite foldl_snoc. simpl. rewrite lookup_insert_ne.
  - apply IH. tauto.
  - intros ->. apply Hc. right. simpl. apply list_elem_of_here.
Qed.

Lemma foldl_assign_reverse_other l : ∀ self p,
  p ∉ l.*2 →
  reverse_mapping (foldl assign self l) !! p = reverse_mapping self !! p.
Proof.
  induction l as [|[c0 p0] l IH] using rev_ind; intros self p Hp; [done|].
  rewrite fmap_app, elem_of_app in Hp.
  rewrite foldl_snoc. simpl. rewrite lookup_insert_ne.
  - apply IH. tauto.
  - intros ->. apply Hp. right. simpl. apply list_elem_of_here.
Qed.

(** No assignment removes a key. *)
Lemma foldl_assign_codes_keeps l : ∀ self c,
  is_Some (codes self !! c) → is_Some (codes (foldl assign self l) !! c).
Proof.
  induction l as [|[c0 p0] l IH] using rev_ind; intros self c Hc; [done|].
  rewrite foldl_snoc. simpl. rewrite lookup_insert.
  case_decide; [done|]. by apply IH.
Qed.

Lemma foldl_assign_reverse_keeps l : ∀ self p,
  is_Some (reverse_mapping self !! p) →
  is_Some (reverse_mapping (foldl assign self l) !! p).
Proof.
  induction l as [|[c0 p0] l IH] using rev_ind; intros self p Hp; [done|].
  rewrite foldl_snoc. simpl. rewrite lookup_insert.
  case_decide; [done|]. by apply IH.
Qed.

(** Every entry of the tables was there before or comes from the run. *)
Lemma foldl_assign_reverse_inv l : ∀ self c p,
  reverse_mapping (foldl assign self l) !! p = Some c →
  (c, p) ∈ l ∨ reverse_mapping self !! p = Some c.
Proof.
  induction l as [|[c0 p0] l IH] using rev_ind; intros self c p Hp; [by right|].
  rewrite foldl_snoc in Hp. simpl in Hp. rewrite lookup_insert in Hp.
  rewrite elem_of_app, list_elem_of_singleton. case_decide as Heq.
  - injection Hp as ->. subst. by left; right.
  - apply IH in Hp as [?|?]; [by left; left|by right].
Qed.

Lemma foldl_assign_codes_inv l : ∀ self c p,
  codes (foldl assign self l) !! c = Some p →
  (c, p) ∈ l ∨ codes self !! c = Some p.
Proof.
  induction l as [|[c0 p0] l IH] using rev_ind; intros self c p Hp; [by right|].
  rewrite foldl_snoc in Hp. simpl in Hp. rewrite lookup_insert in Hp.
  rewrite elem_of_app, list_elem_of_singleton. case_decide as Heq.
  - injection Hp as ->. subst. by left; right.
  - apply IH in Hp as [?|?]; [by left; left|by right].
Qed.

(** The tables that [build_codes] leaves for a tree of [merge_nodes] whose
    characters are distinct. *)
Lemma leaf_path_char_unique root c p p' :
  NoDup (leaves root) → leaf_path root c p → leaf_path root c p' → p = p'.
Proof.
  intros Hnd H1%tree_codes_leaf_path H2%tree_codes_leaf_path.
  unfold leaves in Hnd. revert Hnd H1 H2.
  generalize (tree_codes root []). intros l.
  induction l as [|[c0 p0] l IH]; simpl; intros Hnd H1 H2.
  { by apply elem_of_nil in H1. }
  apply NoDup_cons in Hnd as [Hc0 Hnd].
  apply elem_of_cons in H1 as [[= -> ->]|H1], H2 as [[= ->]|H2]; try done.
  - subst. destruct Hc0. apply list_elem_of_fmap. by exists (c0, p').
  - subst. destruct Hc0. apply list_elem_of_fmap. by exists (c0, p).
  - by apply IH.
Qed.

Lemma build_codes_codes self root c p :
  NoDup (leaves root) → leaf_path root c p →
  codes (build_codes self root) !! c = Some p.
Proof.
  intros Hnd Hp. rewrite build_codes_assign. apply foldl_assign_codes.
  - by apply tree_codes_leaf_path.
  - intros p' Hp'%tree_codes_leaf_path.
    by apply (leaf_path_char_unique root c).
Qed.

Lemma build_codes_reverse self root c p :
  huffman_tree root → leaf_path root c p →
  reverse_mapping (build_codes self root) !! p = Some c.
Proof.
  intros Hwf Hp. rewrite build_codes_assign. apply foldl_assign_reverse.
  - by apply tree_codes_leaf_path.
  - intros c' Hp'%tree_codes_leaf_path.
    by destruct (leaf_path_prefix root Hwf c' p c p).
Qed.

Lemma leaves_leaf_path root c :
  c ∈ leaves root ↔ ∃ p, leaf_path root c p.
Proof.
  unfold leaves. rewrite list_elem_of_fmap. split.
  - intros ([c' p] & -> & Hin). exists p. by apply tree_codes_leaf_path.
  - intros [p Hp]. exists (c, p). split; [done|].
    by apply tree_codes_leaf_path.
Qed.

(** ** Encoding *)

Lemma encoding_cons self a text :
  encoding self (a :: text)
  = default [] (codes self !! a) ++ encoding self text.
Proof. reflexivity. Qed.

Lemma get_encoded_text_spec self text :
  (∀ c, c ∈ text → is_Some (codes self !! c)) →
  get_encoded_text self text = Ok (encoding self text).
Proof.
  unfold get_encoded_text. intros Hcodes.
  cut (∀ joined,
    foldl (λ acc char,
             joined ← acc;
             match codes self !! char with
             | Some code => Ok (joined ++ code)
             | None => Raise KeyError
             end) (Ok joined) text = Ok (joined ++ encoding self text)).
  { intros Hcut. apply Hcut. }
  induction text as [|a text IH]; intros joined.
  { simpl. by rewrite app_nil_r. }
  destruct (Hcodes a) as [code Hcode]; [left|].
  rewrite encoding_cons. cbn [foldl]. rewrite bind_Ok, Hcode. simpl.
  rewrite app_assoc. apply IH.
  intros c Hc. apply Hcodes. by right.
Qed.

Lemma encoding_bits self text :
  (∀ c p, c ∈ text → codes self !! c = Some p → Forall is_bit p) →
  Forall is_bit (encoding self text).
Proof.
  intros Hbits. unfold encoding. apply Forall_bind, Forall_forall.
  intros c Hc. unfold compose.
  destruct (codes self !! c) as [p|] eqn:Hp; simpl; [|constructor].
  by apply (Hbits c).
Qed.

(** ** The decode scan *)

Lemma decode_scan_snoc self s bit :
  decode_scan self (s ++ [bit]) = decode_step self (decode_scan self s) bit.
Proof. unfold decode_scan. by rewrite foldl_snoc. Qed.

(** When the scan stops, the candidate is the tail of the input and the
    output is what the scan gives on the input without that tail. *)
Lemma decode_scan_split self s :
  ∃ consumed,
    s = consumed ++ (decode_scan self s).1
    ∧ decode_scan self consumed = ([], (decode_scan self s).2).
Proof.
  induction s as [|bit s IH] using rev_ind.
  { by exists []. }
  destruct IH as (consumed & Hs & Hscan).
  rewrite decode_scan_snoc.
  destruct (decode_scan self s) as [cand out] eqn:Hst. simpl in *.
  destruct (reverse_mapping self !! (cand ++ [bit])) as [c|] eqn:Hc; simpl.
  - exists (s ++ [bit]). rewrite app_nil_r. split; [done|].
    by rewrite decode_scan_snoc, Hst; simpl; rewrite Hc.
  - exists consumed. split; [|done]. by rewrite Hs at 1; rewrite app_assoc.
Qed.

Lemma decode_code self rest c out : ∀ todo seen,
  todo ≠ [] →
  reverse_mapping self !! (seen ++ todo) = Some c →
  (∀ q, (length seen < length q)%nat → q `prefix_of` seen ++ todo →
        q ≠ seen ++ todo → reverse_mapping self !! q = None) →
  foldl (decode_step self) (seen, out) (todo ++ rest)
  = foldl (decode_step self) ([], out ++ [c]) rest.
Proof.
  induction todo as [|bit todo IH]; intros seen Hne Hcode Hshort; [done|].
  simpl. destruct todo as [|bit' todo].
  { by rewrite Hcode. }
  rewrite (Hshort (seen ++ [bit])).
  - apply IH; [done|by rewrite <- app_assoc|].
    intros q Hlen. rewrite <- app_assoc. apply Hshort.
    rewrite length_app in Hlen. lia.
  - rewrite length_app. simpl. lia.
  - exists (bit' :: todo). by rewrite <- app_assoc.
  - intros Heq%app_inv_head. discriminate.
Qed.

Lemma decode_encoding self text : ∀ rest out,
  (∀ c, c ∈ text → ∃ p, decodable self c p) →
  foldl (decode_step self) ([], out) (encoding self text ++ rest)
  = foldl (decode_step self) ([], out ++ text) rest.
Proof.
  induction text as [|a text IH]; intros rest out Hdec.
  { simpl. by rewrite app_nil_r. }
  destruct (Hdec a) as (p & Hp & Hne & Hrev & Hshort); [left|].
  rewrite encoding_cons, Hp. simpl. rewrite <- app_assoc.
  rewrite (decode_code self _ a out p []); try done.
  - rewrite IH, <- app_assoc; [done|]. intros c Hc. apply Hdec. by right.
  - intros q Hlen. apply Hshort. destruct q; simpl in *; [lia|done].
Qed.

(** On a table that decodes every symbol of [text], the scan of the
    encoding returns [text] and leaves no candidate. *)
Lemma decode_scan_encoding self text :
  (∀ c, c ∈ text → ∃ p, decodable self c p) →
  decode_scan self (encoding self text) = ([], text).
Proof.
  intros Hdec. unfold decode_scan.
  rewrite <- (app_nil_r (encoding self text)).
  by rewrite decode_encoding.
Qed.

(** ** Slices *)

Lemma slice_window {A} (l : list A) (i n : Z) :
  0 ≤ i → 0 ≤ n →
  slice l (Some i) (Some (i + n)) = take (Z.to_nat n) (drop (Z.to_nat i) l).
Proof.
  intros Hi Hn. unfold slice, slice_bound. simpl.
  rewrite (proj2 (Z.ltb_ge i 0)), (proj2 (Z.ltb_ge (i + n) 0)) by lia.
  destruct (decide (i + n ≤ Z.of_nat (length l))).
  { by rewrite !Z.min_l by lia; f_equal; lia. }
  destruct (decide (i ≤ Z.of_nat (length l))).
  - rewrite (Z.min_r (i + n)), (Z.min_l i) by lia.
    rewrite !take_ge; [done|rewrite length_drop; lia..].
  - rewrite !Z.min_r by lia. rewrite !drop_ge by lia. by rewrite !take_nil.
Qed.

Lemma slice_upto {A} (l : list A) (n : Z) :
  0 ≤ n → slice l None (Some n) = take (Z.to_nat n) l.
Proof.
  intros Hn. unfold slice, slice_bound. simpl.
  rewrite (proj2 (Z.ltb_ge n 0)) by lia. rewrite Z.sub_0_r.
  change (Z.to_nat 0) with 0%nat. rewrite drop_0.
  destruct (decide (n ≤ Z.of_nat (length l))).
  - by rewrite Z.min_l by lia.
  - rewrite Z.min_r by lia. rewrite !take_ge; [done|lia..].
Qed.

Lemma slice_from {A} (l : list A) (i : Z) :
  0 ≤ i → slice l (Some i) None = drop (Z.to_nat i) l.
Proof.
  intros Hi. unfold slice, slice_bound. simpl.
  rewrite (proj2 (Z.ltb_ge i 0)) by lia.
  destruct (decide (i ≤ Z.of_nat (length l))).
  - rewrite Z.min_l by lia. apply take_ge. rewrite length_drop. lia.
  - rewrite Z.min_r by lia. rewrite !drop_ge by lia. by rewrite take_nil.
Qed.

(** [l[i:-p]] for [p > 0] drops [p] items at the end. *)
Lemma slice_strip {A} (l : list A) (i p : Z) :
  0 ≤ i → 0 < p →
  slice l (Some i) (Some (- p))
  = take (Z.to_nat (Z.of_nat (length l) - p - i)) (drop (Z.to_nat i) l).
Proof.
  intros Hi Hp. unfold slice, slice_bound. simpl.
  rewrite (proj2 (Z.ltb_ge i 0)), (proj2 (Z.ltb_lt (- p) 0)) by lia.
  destruct (decide (i ≤ Z.of_nat (length l))).
  - rewrite Z.min_l by lia. f_equal. lia.
  - rewrite Z.min_r by lia. rewrite !drop_ge by lia. by rewrite !take_nil.
Qed.

(** [l[i:-0]] is [l[i:0]]: empty. *)
Lemma slice_strip_0 {A} (l : list A) (i : Z) :
  0 ≤ i → slice l (Some i) (Some (- 0)) = [].
Proof.
  intros Hi. unfold slice, slice_bound. simpl.
  rewrite (proj2 (Z.ltb_ge i 0)) by lia.
  replace (Z.to_nat ((- 0) `min` Z.of_nat (length l)
                      - i `min` Z.of_nat (length l)))
    with 0%nat by lia.
  done.
Qed.

(** ** Bits and bytes *)

Lemma byte_bits_spec x :
  length (byte_bits x) = 8%nat ∧ Forall is_bit (byte_bits x)
  ∧ int_2 (byte_bits x) = Ok (byte_value x).
Proof.
  split; [|split].
  - by destruct x.
  - apply (bool_decide_unpack _). by destruct x; vm_compute.
  - by destruct x.
Qed.

Lemma bytearray_append_byte b x :
  bytearray_append b (byte_value x) = Ok (b ++ [x]).
Proof.
  unfold bytearray_append, byte_value.
  rewrite decide_True by lia. by rewrite N2Z.id, Byte.of_to_N.
Qed.

Lemma unpack_bits_bind data : unpack_bits data = data ≫= byte_bits.
Proof.
  unfold unpack_bits.
  cut (∀ acc, foldl (λ bit_string byte,
                       bit_string
                       ++ rjust (slice (bin (byte_value byte)) (Some 2) None)
                                8 "0") acc data
              = acc ++ (data ≫= byte_bits)).
  { intros Hcut. apply Hcut. }
  induction data as [|x data IH]; intros acc; simpl.
  { by rewrite app_nil_r. }
  by rewrite IH, <- app_assoc.
Qed.

Lemma unpack_bits_cons x data :
  unpack_bits (x :: data) = byte_bits x ++ unpack_bits data.
Proof. by rewrite !unpack_bits_bind. Qed.

Lemma unpack_bits_length data :
  length (unpack_bits data) = (8 * length data)%nat.
Proof.
  induction data as [|x data IH]; [done|].
  rewrite unpack_bits_cons, length_app, IH.
  destruct (byte_bits_spec x) as [-> _]. simpl. lia.
Qed.

Lemma unpack_bits_bits data : Forall is_bit (unpack_bits data).
Proof.
  induction data as [|x data IH]; [constructor|].
  rewrite unpack_bits_cons. apply Forall_app. split; [|done].
  apply byte_bits_spec.
Qed.

(** Eight binary digits are the bits of one byte. *)
Lemma chunk_byte chunk :
  Forall is_bit chunk → length chunk = 8%nat →
  ∃ x, int_2 chunk = Ok (byte_value x) ∧ byte_bits x = chunk.
Proof.
  intros Hbits Hlen.
  do 9 (destruct chunk as [|? chunk]; try discriminate).
  cut (∃ n, int_2 [a; a0; a1; a2; a3; a4; a5; a6] = Ok n ∧ 0 ≤ n
            ∧ ∃ x, Byte.of_N (Z.to_N n) = Some x
                   ∧ byte_bits x = [a; a0; a1; a2; a3; a4; a5; a6]).
  { intros (n & Hn & Hpos & x & Hx & Hb). exists x. split; [|done].
    rewrite Hn. f_equal. unfold byte_value.
    apply Byte.to_of_N in Hx. rewrite Hx. lia. }
  repeat match goal with
         | H : Forall _ (_ :: _) |- _ => apply Forall_cons in H as [[-> | ->] H]
         end;
    (eexists; split; [reflexivity|]; split; [done|];
     eexists; split; reflexivity).
Qed.

(** ** Padding and packing *)

Lemma format_08b_spec p :
  1 ≤ p ≤ 8 →
  length (format_08b p) = 8%nat ∧ Forall is_bit (format_08b p)
  ∧ int_2 (format_08b p) = Ok p.
Proof.
  intros Hp.
  assert (p = 1 ∨ p = 2 ∨ p = 3 ∨ p = 4 ∨ p = 5 ∨ p = 6 ∨ p = 7 ∨ p = 8)
    as Hcases by lia.
  repeat destruct Hcases as [->|Hcases]; try subst p;
    (split; [done|split; [by apply (bool_decide_unpack _)|done]]).
Qed.

Lemma extra_padding_range (n : nat) : 1 ≤ 8 - Z.of_nat n `mod` 8 ≤ 8.
Proof. pose proof (Z.mod_pos_bound (Z.of_nat n) 8). lia. Qed.

Lemma pad_encoded_text_length encoded_text :
  ∃ k, length (pad_encoded_text encoded_text) = (8 * k)%nat.
Proof.
  unfold pad_encoded_text.
  pose proof (extra_padding_range (length encoded_text)) as Hp.
  destruct (format_08b_spec _ Hp) as (Hlen & _).
  rewrite !length_app, Hlen, length_replicate.
  exists (Z.to_nat (Z.of_nat (length encoded_text) `div` 8 + 2)).
  pose proof (Z.div_mod (Z.of_nat (length encoded_text)) 8).
  pose proof (Z.div_pos (Z.of_nat (length encoded_text)) 8). lia.
Qed.

Lemma pad_encoded_text_bits encoded_text :
  Forall is_bit encoded_text → Forall is_bit (pad_encoded_text encoded_text).
Proof.
  intros Hbits. unfold pad_encoded_text.
  pose proof (extra_padding_range (length encoded_text)) as Hp.
  destruct (format_08b_spec _ Hp) as (_ & Hhdr & _).
  rewrite !Forall_app. repeat split; [done..|].
  apply Forall_replicate. by left.
Qed.

(** The packing loop, from chunk [m] on, over [k] chunks. *)
Lemma pack_loop s : ∀ k m b,
  Forall is_bit s → (8 * (m + k) ≤ length s)%nat →
  ∃ bs,
    foldl (λ acc i,
             b ← acc;
             n ← int_2 (slice s (Some i) (Some (i + 8)));
             bytearray_append b n)
          (Ok b) ((λ j : nat, 8 * Z.of_nat j) <$> seq m k)
    = Ok (b ++ bs)
    ∧ unpack_bits bs = take (8 * k) (drop (8 * m) s).
Proof.
  induction k as [|k IH]; intros m b Hbits Hlen.
  { exists []. by rewrite app_nil_r. }
  cbn [seq fmap list_fmap foldl]. rewrite bind_Ok.
  rewrite slice_window by lia.
  replace (Z.to_nat (8 * Z.of_nat m)) with (8 * m)%nat by lia.
  change (Z.to_nat 8) with 8%nat.
  destruct (chunk_byte (take 8 (drop (8 * m) s))) as (x & -> & Hx).
  { by apply Forall_take, Forall_drop. }
  { rewrite length_take, length_drop. lia. }
  rewrite bind_Ok, bytearray_append_byte.
  destruct (IH (S m) (b ++ [x])) as (bs & -> & Hbs); [done|lia|].
  exists (x :: bs). split; [by rewrite <- app_assoc|].
  rewrite unpack_bits_cons, Hx, Hbs.
  replace (8 * S m)%nat with (8 * m + 8)%nat by lia.
  rewrite <- drop_drop, take_take_drop. f_equal. lia.
Qed.

Lemma pack_bytes_spec padded_text k :
  Forall is_bit padded_text → length padded_text = (8 * k)%nat →
  ∃ b, pack_bytes padded_text = Ok b ∧ unpack_bits b = padded_text.
Proof.
  intros Hbits Hlen. unfold pack_bytes, range_by_8.
  replace ((length padded_text + 7) / 8)%nat with k.
  2:{ rewrite Hlen. apply Nat.div_unique with 7%nat; lia. }
  destruct (pack_loop padded_text k 0 [] Hbits) as (b & -> & Hb); [lia|].
  exists b. split; [done|]. rewrite Hb, drop_0. apply take_ge. lia.
Qed.

Lemma remove_padding_pad encoded_text :
  remove_padding (pad_encoded_text encoded_text) = Ok encoded_text.
Proof.
  unfold remove_padding, pad_encoded_text.
  pose proof (extra_padding_range (length encoded_text)) as Hp.
  set (p := 8 - Z.of_nat (length encoded_text) `mod` 8) in *.
  destruct (format_08b_spec _ Hp) as (Hlen & _ & Hint).
  rewrite slice_upto by lia. change (Z.to_nat 8) with 8%nat.
  rewrite take_app_length' by done. rewrite Hint, bind_Ok.
  rewrite slice_strip by lia. change (Z.to_nat 8) with 8%nat.
  rewrite drop_app_length' by done.
  rewrite !length_app, Hlen, length_replicate. f_equal.
  apply take_app_length'. lia.
Qed.

(** ** [compress] on a text that is not empty *)

Lemma compress_spec self text :
  text ≠ [] →
  ∃ b root,
    compress self text = (Ok (b, root), build_codes self root)
    ∧ huffman_tree root ∧ NoDup (leaves root)
    ∧ (∀ c, c ∈ leaves root ↔ c ∈ text)
    ∧ (two_symbols text → char root = None)
    ∧ get_encoded_text (build_codes self root) text
      = Ok (encoding (build_codes self root) text)
    ∧ unpack_bits b
      = pad_encoded_text (encoding (build_codes self root) text).
Proof.
  intros Htext.
  destruct (compress_tree text Htext)
    as (root & Htree & Hwf & Hnd & Hel & Hmerged).
  unfold compress. cbv zeta. rewrite Htree.
  assert (∀ c, c ∈ text →
            ∃ p, leaf_path root c p
                 ∧ codes (build_codes self root) !! c = Some p) as Hcodes.
  { intros c [p Hp]%Hel%leaves_leaf_path. exists p. split; [done|].
    by apply build_codes_codes. }
  assert (get_encoded_text (build_codes self root) text
          = Ok (encoding (build_codes self root) text)) as Henc.
  { apply get_encoded_text_spec. intros c (p & _ & ->)%Hcodes. by eexists. }
  rewrite Henc, bind_Ok.
  destruct (pad_encoded_text_length (encoding (build_codes self root) text))
    as [k Hk].
  assert (Forall is_bit
            (pad_encoded_text (encoding (build_codes self root) text)))
    as Hbits.
  { apply pad_encoded_text_bits, encoding_bits.
    intros c p (p' & Hpath & Hp')%Hcodes Hp.
    rewrite Hp in Hp'. injection Hp' as ->. by eapply leaf_path_bits. }
  destruct (pack_bytes_spec _ k Hbits Hk) as (b & -> & Hb).
  rewrite bind_Ok. by exists b, root.
Qed.

(** The bounds that the model places on the loops of [heapq] and of
    [merge_nodes] are never reached. *)
Lemma compress_fuel self text : (compress self text).1 ≠ OutOfFuel.
Proof.
  destruct text as [|a text]; [done|].
  destruct (compress_spec self (a :: text)) as (b & root & -> & _); done.
Qed.

(** On a new instance the tables hold the codes of the tree and nothing
    else, so the scan recognises each code and no shorter string. *)
Lemma build_codes_decodable root c p :
  huffman_tree root → NoDup (leaves root) → char root = None →
  leaf_path root c p → decodable (build_codes __init__ root) c p.
Proof.
  intros Hwf Hnd Hmerged Hp. repeat split.
  - by apply build_codes_codes.
  - intros ->. inversion Hp; subst. discriminate.
  - by apply build_codes_reverse.
  - intros q _ Hpre Hne.
    destruct (reverse_mapping (build_codes __init__ root) !! q)
      as [c'|] eqn:Hq; [|done].
    rewrite build_codes_assign in Hq.
    apply foldl_assign_reverse_inv in Hq as [Hq%tree_codes_leaf_path|Hq].
    + by destruct (leaf_path_prefix root Hwf c' q c p).
    + done.
Qed.

(** Round trip on a text with two distinct symbols, on a new instance. *)
Theorem roundtrip_two_symbols text :
  two_symbols text →
  ∃ b root self,
    compress __init__ text = (Ok (b, root), self)
    ∧ decompress self b = Ok text.
Proof.
  intros Htwo.
  destruct (compress_spec __init__ text)
    as (b & root & Hc & Hwf & Hnd & Hel & Hmerged & _ & Hb).
  { destruct Htwo as (a & _ & Ha & _). intros ->. by apply elem_of_nil in Ha. }
  exists b, root, (build_codes __init__ root). split; [done|].
  unfold decompress. rewrite Hb, remove_padding_pad, bind_Ok.
  unfold decode_text. rewrite decode_scan_encoding; [done|].
  intros c [p Hp]%Hel%leaves_leaf_path. exists p.
  apply build_codes_decodable; auto.
Qed.

(** ** [compress] on a text of one repeated symbol *)

Lemma Counter_replicate c n :
  Counter (replicate (S n) c) = [(c, Z.of_nat (S n))].
Proof.
  unfold Counter.
  cut (∀ k, foldl (λ d c, dict_set d c (dict_get d c 0 + 1)) [(c, k)]
                  (replicate n c) = [(c, k + Z.of_nat n)]).
  { intros Hcut. cbn [foldl replicate dict_set dict_get]. rewrite Hcut.
    do 2 f_equal. lia. }
  induction n as [|n IH]; intros k.
  { simpl. do 2 f_equal. lia. }
  cbn [foldl replicate dict_set dict_get]. rewrite !decide_True by done.
  rewrite IH. do 2 f_equal. lia.
Qed.

Lemma encoding_single_symbol self c m :
  encoding (assign self (c, [])) (replicate m c) = [].
Proof.
  induction m as [|m IH]; [done|].
  cbn [replicate]. rewrite encoding_cons, IH. simpl.
  by rewrite lookup_insert_eq.
Qed.

Lemma compress_single_symbol self c n :
  compress self (replicate (S n) c)
  = (Ok (["008"%byte; "000"%byte], mkNode (Some c) (Z.of_nat (S n)) None None),
     assign self (c, [])).
Proof.
  unfold compress, build_frequency_dict. cbv zeta.
  rewrite Counter_replicate.
  change (heap ← build_heap [(c, Z.of_nat (S n))]; merge_nodes heap)
    with (Ok (mkNode (Some c) (Z.of_nat (S n)) None None)).
  cbv iota beta.
  change (build_codes self (mkNode (Some c) (Z.of_nat (S n)) None None))
    with (assign self (c, [])).
  rewrite get_encoded_text_spec.
  2:{ intros c' Hc'%elem_of_replicate. destruct Hc' as [-> _].
      simpl. rewrite lookup_insert_eq. by eexists. }
  by rewrite encoding_single_symbol.
Qed.


(** ** [decompress] on a buffer that is not empty *)

Lemma remove_padding_bytes hd tl :
  remove_padding (unpack_bits (hd :: tl)) = Ok (payload_bits hd tl).
Proof.
  unfold remove_padding, payload_bits. rewrite unpack_bits_cons.
  destruct (byte_bits_spec hd) as (Hlen & _ & Hint).
  rewrite slice_upto by lia. change (Z.to_nat 8) with 8%nat.
  rewrite take_app_length' by done. rewrite Hint, bind_Ok.
  case_decide as Hzero.
  { rewrite Hzero. by rewrite slice_strip_0. }
  assert (0 ≤ byte_value hd) by (unfold byte_value; lia).
  rewrite slice_strip by lia. change (Z.to_nat 8) with 8%nat.
  rewrite drop_app_length' by done.
  rewrite length_app, Hlen, unpack_bits_length. do 2 f_equal. lia.
Qed.

Lemma decompress_cons self hd tl :
  decompress self (hd :: tl) = Ok (decode_text self (payload_bits hd tl)).
Proof. unfold decompress. by rewrite remove_padding_bytes. Qed.

(** ** The buffer does not depend on the state of the instance *)

Lemma get_encoded_text_ext self1 self2 text :
  (∀ c, c ∈ text → codes self1 !! c = codes self2 !! c) →
  get_encoded_text self1 text = get_encoded_text self2 text.
Proof.
  unfold get_encoded_text. generalize (@Ok str []).
  induction text as [|a text IH]; intros acc Hcodes; [done|].
  cbn [foldl]. rewrite (Hcodes a) by left.
  apply IH. intros c Hc. apply Hcodes. by right.
Qed.

Lemma compress_any_state self text :
  (compress self text).1 = (compress __init__ text).1.
Proof.
  destruct text as [|a text].
  { done. }
  destruct (compress_tree (a :: text))
    as (root & Htree & Hwf & Hnd & Hel & _); [done|].
  unfold compress. cbv zeta. rewrite Htree. cbn [fst].
  rewrite (get_encoded_text_ext (build_codes self root)
             (build_codes __init__ root)); [done|].
  intros c [p Hp]%Hel%leaves_leaf_path.
  by rewrite !(build_codes_codes _ root c p).
Qed.

(** A run of assignments puts its entries over the tables that were
    there. *)
Lemma foldl_assign_union l self :
  codes (foldl assign self l) = codes (foldl assign __init__ l) ∪ codes self
  ∧ reverse_mapping (foldl assign self l)
    = reverse_mapping (foldl assign __init__ l) ∪ reverse_mapping self.
Proof.
  induction l as [|[c p] l [IH1 IH2]] using rev_ind.
  { simpl. by rewrite !(left_id_L ∅ (∪)). }
  rewrite !foldl_snoc. simpl. rewrite IH1, IH2.
  by rewrite !insert_union_l.
Qed.

(** The tables after [compress] are the tables that a new instance would
    get, put over the tables that were there. *)
Lemma compress_overlay self text :
  codes (compress self text).2
  = codes (compress __init__ text).2 ∪ codes self
  ∧ reverse_mapping (compress self text).2
    = reverse_mapping (compress __init__ text).2 ∪ reverse_mapping self.
Proof.
  destruct text as [|a text].
  { simpl. by rewrite !(left_id_L ∅ (∪)). }
  pose proof (compress_any_state self (a :: text)) as Hsame.
  destruct (compress_spec self (a :: text)) as (b & root & Hc & _); [done|].
  destruct (compress_spec __init__ (a :: text))
    as (b' & root' & Hc' & _); [done|].
  rewrite Hc, Hc' in Hsame |- *. simpl in Hsame |- *.
  injection Hsame as _ <-. rewrite !build_codes_assign.
  apply foldl_assign_union.
Qed.

(** The tables decode the codes of a tree when no key that was there
    before is a proper prefix of a code of the tree. *)
Lemma build_codes_decodable_reused self root c p :
  huffman_tree root → NoDup (leaves root) → char root = None →
  (∀ k c' p', is_Some (reverse_mapping self !! k) → k ≠ [] →
              leaf_path root c' p' → k `prefix_of` p' → k = p') →
  leaf_path root c p → decodable (build_codes self root) c p.
Proof.
  intros Hwf Hnd Hmerged Hstale Hp. repeat split.
  - by apply build_codes_codes.
  - intros ->. inversion Hp; subst. discriminate.
  - by apply build_codes_reverse.
  - intros q Hq Hpre Hne.
    destruct (reverse_mapping (build_codes self root) !! q)
      as [c'|] eqn:Hlook; [|done].
    rewrite build_codes_assign in Hlook.
    apply foldl_assign_reverse_inv in Hlook as [Hin%tree_codes_leaf_path|Hold].
    + by destruct (leaf_path_prefix root Hwf c' q c p).
    + destruct Hne. apply (Hstale q c p); [by eexists|done..].
Qed.

(** * The codec's properties *)

(** ** The example of the specification *)

(** ["aabbbcc"]: the tree has three leaves under two merged nodes, the
    codes are b:"0", c:"10", a:"11", the 11 payload bits are packed into
    two bytes after the header byte 5. *)
Example compress_aabbbcc :
  let text := py "aabbbcc" in
  let root :=
    mkNode None 7 (Some (mkNode (Some "b"%char) 3 None None))
      (Some (mkNode None 4 (Some (mkNode (Some "c"%char) 2 None None))
                           (Some (mkNode (Some "a"%char) 2 None None)))) in
  let self := (compress __init__ text).2 in
  (compress __init__ text).1 = Ok (["005"; "241"; "@"]%byte, root)
  ∧ codes self !! "b"%char = Some (py "0")
  ∧ codes self !! "c"%char = Some (py "10")
  ∧ codes self !! "a"%char = Some (py "11")
  ∧ get_encoded_text self text = Ok (py "11110001010")
  ∧ decompress self ["005"; "241"; "@"]%byte = Ok text.
Proof. repeat split; by vm_compute. Qed.

(** ** Round trip *)

(** A text of one repeated symbol is lost: the tree is a bare leaf, the
    code of the symbol is the empty string, the payload has no bit, and
    [decompress] returns the empty string. *)
Lemma roundtrip_single_symbol_lost c n :
  ∃ b root self,
    compress __init__ (replicate (S n) c) = (Ok (b, root), self)
    ∧ decompress self b = Ok [].
Proof. rewrite compress_single_symbol. by eexists _, _, _. Qed.

(** C1, at the input "aaaa": [compress] succeeds, and [decompress] on its
    buffer with its tables returns the empty string, not "aaaa". *)
Theorem roundtrip_aaaa_lost :
  ∃ b root self,
    compress __init__ (py "aaaa") = (Ok (b, root), self)
    ∧ decompress self b = Ok []
    ∧ decompress self b ≠ Ok (py "aaaa").
Proof.
  change (py "aaaa") with (replicate 4 "a"%char).
  rewrite compress_single_symbol. by eexists _, _, _.
Qed.

(** ** The single-symbol case *)

(** C2, at the input "aaaa": the root that [compress] returns is the leaf
    itself, with no merged node around it; the symbol gets the empty
    string as its code, not a one-bit code; the buffer is the header byte
    8 and one byte of padding. *)
Theorem single_symbol_aaaa_bare_leaf :
  compress __init__ (py "aaaa")
  = (Ok (["008"%byte; "000"%byte], mkNode (Some "a"%char) 4 None None),
     {| codes := {["a"%char := []]}; reverse_mapping := {[ [] := "a"%char]} |}).
Proof.
  change (py "aaaa") with (replicate 4 "a"%char).
  by rewrite compress_single_symbol.
Qed.

(** ** Error handling *)

(** C3 fails: with the tables of "aabbbcc", the scan of the buffer
    [04 f1 50] ends on the candidate "1", which matches no entry, and
    [decompress] returns the seven symbols decoded before it; it also
    returns on a header of 9, and on a header of 200 that exceeds the 16
    bits of the buffer. *)
Lemma decompress_accepts_corrupt_stream :
  let self := (compress __init__ (py "aabbbcc")).2 in
  (decode_scan self (payload_bits "004" ["241"; "P"]%byte)).1 = py "1"
  ∧ reverse_mapping self !! py "1" = None
  ∧ decompress self ["004"; "241"; "P"]%byte = Ok (py "aabbbcc")
  ∧ decompress self ["004"; "241"; "P"]%byte ≠ Raise CorruptStreamError
  ∧ decompress self ["009"; "241"; "@"]%byte = Ok (py "aabbb")
  ∧ decompress self ["200"; "241"]%byte = Ok [].
Proof. vm_compute. repeat split; discriminate. Qed.

(** C3, amended: on a buffer with first byte [hd], [decompress] raises
    nothing.  The payload is what is left of the other bytes' bits after
    dropping the last [hd] of them, whatever [hd] is; the output is what
    the scan decodes before its last, unmatched candidate, which is
    dropped; a header of at least the number of payload bits gives the
    empty string. *)
Theorem decompress_lenient self hd tl :
  ∃ consumed candidate out,
    payload_bits hd tl = consumed ++ candidate
    ∧ decode_scan self (payload_bits hd tl) = (candidate, out)
    ∧ decode_scan self consumed = ([], out)
    ∧ decompress self (hd :: tl) = Ok out
    ∧ (8 * Z.of_nat (length tl) ≤ byte_value hd → out = []).
Proof.
  destruct (decode_scan_split self (payload_bits hd tl))
    as (consumed & Hsplit & Hscan).
  destruct (decode_scan self (payload_bits hd tl)) as [candidate out] eqn:Hst.
  exists consumed, candidate, out. repeat split; try done.
  - rewrite decompress_cons. unfold decode_text. by rewrite Hst.
  - intros Hlong. unfold payload_bits in Hst.
    replace (Z.to_nat (8 * Z.of_nat (length tl) - byte_value hd))
      with 0%nat in Hst by lia.
    rewrite take_0 in Hst. case_decide; by injection Hst.
Qed.

(** C5 fails: on the empty text [compress] does not raise
    [EmptyInputError]. *)
Lemma compress_empty_not_EmptyInputError :
  (compress __init__ []).1 ≠ Raise EmptyInputError.
Proof. discriminate. Qed.

(** C5, amended: on the empty text [compress] fails with the [IndexError]
    of [heap[0]] in [merge_nodes], and leaves the tables as they were. *)
Theorem compress_empty_IndexError self :
  compress self [] = (Raise IndexError, self).
Proof. reflexivity. Qed.

(** ** Padding *)




(** ** The code table *)

(** On a new instance and a text that is not empty, the table has one
    code for each symbol of the text and for nothing else; each code is
    a string of '0' and '1', the path from the root to the symbol's leaf;
    no code is a prefix of another; and no code is empty when the text
    has two distinct symbols. *)
Theorem code_table_spec text :
  text ≠ [] →
  ∃ b root self,
    compress __init__ text = (Ok (b, root), self)
    ∧ (∀ c, c ∈ text ↔ is_Some (codes self !! c))
    ∧ (∀ c p, codes self !! c = Some p →
              Forall is_bit p ∧ leaf_path root c p
              ∧ (two_symbols text → p ≠ []))
    ∧ prefix_free (codes self).
Proof.
  intros Htext.
  destruct (compress_spec __init__ text Htext)
    as (b & root & Hc & Hwf & Hnd & Hel & Hmerged & _).
  exists b, root, (build_codes __init__ root). split; [done|].
  assert (∀ c p, codes (build_codes __init__ root) !! c = Some p →
                 leaf_path root c p) as Hpath.
  { intros c p Hp. rewrite build_codes_assign in Hp.
    apply foldl_assign_codes_inv in Hp as [Hp|Hp]; [|done].
    by apply tree_codes_leaf_path. }
  repeat split.
  - intros [p Hp]%Hel%leaves_leaf_path. exists p.
    by apply build_codes_codes.
  - intros [p Hp%Hpath]. apply Hel, leaves_leaf_path. by exists p.
  - eapply leaf_path_bits. by apply Hpath.
  - by apply Hpath.
  - intros Htwo%Hmerged ->. apply Hpath in H. inversion H; subst.
    discriminate.
  - intros c1 c2 p1 p2 H1%Hpath H2%Hpath Hpre.
    by destruct (leaf_path_prefix root Hwf c1 p1 c2 p2).
Qed.

Lemma code_table_spec_witness :
  py "ab" ≠ []
  ∧ ∃ b root self,
      compress __init__ (py "ab") = (Ok (b, root), self)
      ∧ (∀ c, c ∈ py "ab" ↔ is_Some (codes self !! c))
      ∧ (∀ c p, codes self !! c = Some p →
                Forall is_bit p ∧ leaf_path root c p
                ∧ (two_symbols (py "ab") → p ≠ []))
      ∧ prefix_free (codes self).
Proof.
  split; [discriminate|]. apply (code_table_spec (py "ab")). discriminate.
Defined.

(** C6, at the input "aaaa": the code that the table gives the symbol is
    the empty string. *)
Theorem code_of_aaaa_empty :
  codes (compress __init__ (py "aaaa")).2 !! "a"%char = Some [].
Proof. by vm_compute. Qed.

(** ** Determinism *)

(** C7: the same text gives the same buffer and the same tree on any two
    instances, whatever their tables, and the same code for every symbol
    of the text; the two [codes] tables are the same after the call when
    they were the same before it, as on two new instances, and so are the
    two [reverse_mapping] tables.  Nothing but the text and the tables
    enters the result. *)
Theorem compress_deterministic text self1 self2 :
  (compress self1 text).1 = (compress self2 text).1
  ∧ (∀ c, c ∈ text →
          codes (compress self1 text).2 !! c
          = codes (compress self2 text).2 !! c)
  ∧ (codes self1 = codes self2 →
     codes (compress self1 text).2 = codes (compress self2 text).2)
  ∧ (reverse_mapping self1 = reverse_mapping self2 →
     reverse_mapping (compress self1 text).2
     = reverse_mapping (compress self2 text).2).
Proof.
  destruct (compress_overlay self1 text) as [Hc1 Hr1].
  destruct (compress_overlay self2 text) as [Hc2 Hr2].
  split; [by rewrite compress_any_state, <- (compress_any_state self2)|].
  split; [|split].
  - intros c Hin.
    destruct (compress_spec __init__ text)
      as (b & root & Hc & _ & Hnd & Hel & _).
    { intros ->. by apply elem_of_nil in Hin. }
    apply Hel, leaves_leaf_path in Hin as [p Hp].
    assert (codes (compress __init__ text).2 !! c = Some p) as Hnew.
    { rewrite Hc. simpl. by apply build_codes_codes. }
    rewrite Hc1, Hc2, !lookup_union, Hnew.
    by destruct (codes self1 !! c), (codes self2 !! c).
  - intros Heq. by rewrite Hc1, Hc2, Heq.
  - intros Heq. by rewrite Hr1, Hr2, Heq.
Qed.

(** A new instance and one that has compressed "ab" give the same buffer
    and tree for "aabbbcc"; two new instances give the same tables. *)
Lemma compress_deterministic_witness :
  (compress __init__ (py "aabbbcc")).1
  = (compress (compress __init__ (py "ab")).2 (py "aabbbcc")).1
  ∧ codes __init__ = codes __init__
  ∧ codes (compress __init__ (py "aabbbcc")).2
    = codes (compress __init__ (py "aabbbcc")).2.
Proof.
  split.
  - exact (proj1 (compress_deterministic (py "aabbbcc") __init__
                    (compress __init__ (py "ab")).2)).
  - split; [reflexivity|].
    exact (proj1 (proj2 (proj2 (compress_deterministic (py "aabbbcc")
                                  __init__ __init__))) eq_refl).
Defined.

(** ** [decompress] is total on buffers that are not empty *)

(** C8: on a buffer that is not empty, whatever the tables, [decompress]
    returns a string. *)
Theorem decompress_total self compressed_data :
  compressed_data ≠ [] →
  ∃ decoded_text, decompress self compressed_data = Ok decoded_text.
Proof.
  destruct compressed_data as [|hd tl]; [done|]. intros _.
  rewrite decompress_cons. by eexists.
Qed.

Lemma decompress_total_witness :
  ["255"%byte] ≠ []
  ∧ ∃ decoded_text, decompress __init__ ["255"%byte] = Ok decoded_text.
Proof.
  split; [discriminate|]. apply (decompress_total __init__ ["255"%byte]).
  discriminate.
Defined.

(** C9: on a buffer whose first byte is 0, [decompress] returns the empty
    string, whatever the other bytes and the tables. *)
Theorem decompress_zero_header self tl :
  decompress self ("000"%byte :: tl) = Ok [].
Proof. by rewrite decompress_cons. Qed.

(** ** The tables across calls *)

(** What a call of [compress] does to the tables: a run of assignments,
    one for each symbol of the text, none when the text is empty. *)
Lemma compress_tables self text :
  ∃ l, (compress self text).2 = foldl assign self l
       ∧ (∀ c, c ∈ l.*1 → c ∈ text)
       ∧ (∀ c p, (c, p) ∈ l → codes (foldl assign self l) !! c = Some p).
Proof.
  destruct text as [|a text].
  { exists []. repeat split.
    - intros c Hc. by apply elem_of_nil in Hc.
    - intros c p Hc. by apply elem_of_nil in Hc. }
  destruct (compress_spec self (a :: text))
    as (b & root & Hc & Hwf & Hnd & Hel & _); [done|].
  exists (tree_codes root []). rewrite Hc. simpl.
  rewrite <- build_codes_assign. repeat split.
  - intros c. apply Hel.
  - intros c p Hp%tree_codes_leaf_path. by apply build_codes_codes.
Qed.

(** C10: after [compress(A)] then [compress(B)] on one instance, an entry
    of [codes] left by the first call is still there if its symbol is not
    in [B], an entry of [reverse_mapping] is still there if its key is
    not the code that the second call gives a symbol of [B], and no key
    of either table has disappeared. *)
Theorem compress_keeps_entries self A B :
  let self1 := (compress self A).2 in
  let self2 := (compress self1 B).2 in
  (∀ c p, codes self1 !! c = Some p → c ∉ B → codes self2 !! c = Some p)
  ∧ (∀ k s, reverse_mapping self1 !! k = Some s →
            (∀ c, c ∈ B → codes self2 !! c ≠ Some k) →
            reverse_mapping self2 !! k = Some s)
  ∧ (∀ c, is_Some (codes self1 !! c) → is_Some (codes self2 !! c))
  ∧ (∀ k, is_Some (reverse_mapping self1 !! k) →
          is_Some (reverse_mapping self2 !! k)).
Proof.
  intros self1 self2. subst self2. generalize self1. clear. intros self1.
  destruct (compress_tables self1 B) as (l & -> & HB & Hcodes).
  repeat split.
  - intros c p Hp Hc. rewrite foldl_assign_codes_other; [done|].
    intros Hin. by apply Hc, HB.
  - intros k s Hk Hfresh. rewrite foldl_assign_reverse_other; [done|].
    intros ([c p] & -> & Hin)%list_elem_of_fmap.
    apply (Hfresh c).
    + apply HB, list_elem_of_fmap. by exists (c, p).
    + by apply Hcodes.
  - intros c. apply foldl_assign_codes_keeps.
  - intros k. apply foldl_assign_reverse_keeps.
Qed.

(** The entries of "ab" are still in [codes] after "cd" has been
    compressed on the same instance. *)
Lemma compress_keeps_entries_witness :
  let self1 := (compress __init__ (py "ab")).2 in
  let self2 := (compress self1 (py "cd")).2 in
  codes self1 !! "a"%char = Some (py "1")
  ∧ ("a"%char ∉ py "cd")
  ∧ codes self2 !! "a"%char = Some (py "1").
Proof.
  assert (codes (compress __init__ (py "ab")).2 !! "a"%char = Some (py "1"))
    as H1 by (by vm_compute).
  assert ("a"%char ∉ py "cd") as H2.
  { intros H. repeat (apply elem_of_cons in H as [H|H]; [discriminate|]).
    by apply elem_of_nil in H. }
  split; [exact H1|]. split; [exact H2|].
  exact (proj1 (compress_keeps_entries __init__ (py "ab") (py "cd"))
           "a"%char (py "1") H1 H2).
Defined.

(** A stale entry takes part in decoding: after "ab", the instance keeps
    "1" for 'a'; the codes of "aabbbcc" are b:"0", c:"10", a:"11", and
    the scan of its buffer stops on the stale "1". *)
Example stale_entry_breaks_round_trip :
  let self1 := (compress __init__ (py "ab")).2 in
  let self2 := (compress self1 (py "aabbbcc")).2 in
  (compress self1 (py "aabbbcc")).1 = (compress __init__ (py "aabbbcc")).1
  ∧ reverse_mapping self2 !! py "1" = Some "a"%char
  ∧ decompress self2 ["005"; "241"; "@"]%byte = Ok (py "aaaabbbabab").
Proof. repeat split; by vm_compute. Qed.

(** * Further properties of the codec *)

(** ** The heap operations keep the heap order *)

Section heap_order.
Context {A : Type} (lt : A → A → bool) (key : A → Z).
Hypothesis lt_key : ∀ a b, lt a b = (key a <? key b).
Implicit Types (heap : list A) (x y : A).

Lemma parent_lt i : (0 < i)%nat → (parent i < i)%nat.
Proof. unfold parent. lia. Qed.

Lemma parent_child i p :
  (0 < i)%nat → parent i = p ↔ (i = 2 * p + 1 ∨ i = 2 * p + 2)%nat.
Proof. unfold parent. lia. Qed.

(** Filling the hole at [pos] with an item that fits between the parent
    and the children of [pos] gives a heap. *)
Lemma heap_from_fill heap startpos pos newitem :
  (∀ i x p, (0 < i)%nat → (startpos ≤ parent i)%nat → i ≠ pos →
            parent i ≠ pos →
            heap !! i = Some x → heap !! parent i = Some p → key p ≤ key x) →
  (∀ c x, (0 < c)%nat → parent c = pos → heap !! c = Some x →
          key newitem ≤ key x) →
  (∀ p, (0 < pos)%nat → (startpos ≤ parent pos)%nat →
        heap !! parent pos = Some p → key p ≤ key newitem) →
  heap_from key startpos (<[pos:=newitem]> heap).
Proof.
  intros Hother Hchildren Hparent i x p Hi Hstart Hx Hp.
  pose proof (parent_lt i Hi).
  rewrite list_lookup_insert in Hx, Hp.
  destruct (decide (pos = i ∧ (pos < length heap)%nat)) as [[-> _]|Hni].
  - injection Hx as <-. rewrite decide_False in Hp by lia.
    by apply Hparent.
  - destruct (decide (pos = parent i ∧ (pos < length heap)%nat))
      as [[-> _]|Hnp].
    + injection Hp as <-. by apply (Hchildren i).
    + apply (Hother i x p); try done.
      * intros ->. apply Hni. split; [done|]. by eapply lookup_lt_Some.
      * intros Heq. apply Hnp. split; [done|].
        rewrite <- Heq. by eapply lookup_lt_Some.
Qed.

(** [_siftdown]: the invariant of the loop is that all items but the one
    at [pos] sit well, and that [newitem] and the parent of [pos] are not
    above the children of [pos]. *)
Lemma below_le k i : below k i → (k ≤ i)%nat.
Proof.
  induction 1 as [|i Hi _ IH]; [done|]. pose proof (parent_lt i Hi). lia.
Qed.

Lemma below_parent k i : below k i → (k < i)%nat → below k (parent i).
Proof. destruct 1; [lia|done]. Qed.

Lemma _siftdown_loop_heap fuel startpos newitem : ∀ heap pos heap' pos',
  heapq._siftdown_loop lt fuel heap startpos pos newitem = Ok (heap', pos') →
  below startpos pos →
  (∀ i x p, (0 < i)%nat → (startpos ≤ parent i)%nat → i ≠ pos →
            heap !! i = Some x → heap !! parent i = Some p → key p ≤ key x) →
  (∀ c x, (0 < c)%nat → parent c = pos → heap !! c = Some x →
          key newitem ≤ key x) →
  (∀ c x p, (startpos < pos)%nat → (0 < c)%nat → parent c = pos →
            heap !! c = Some x → heap !! parent pos = Some p →
            key p ≤ key x) →
  heap_from key startpos (<[pos':=newitem]> heap').
Proof.
  induction fuel as [|fuel IH]; intros heap pos heap' pos' Hrun Hbelow Ha Hb Hd;
    cbn [heapq._siftdown_loop] in Hrun; case_decide as Hpos;
    try discriminate.
  - injection Hrun as <- <-.
    apply heap_from_fill; [intros; by eapply Ha|exact Hb|].
    intros p H0 Hstart. pose proof (parent_lt pos H0). lia.
  - fold (parent pos) in Hrun.
    destruct (heapq.getitem heap (parent pos)) as [par| |] eqn:Hpar;
      try discriminate.
    rewrite bind_Ok in Hrun. unfold heapq.getitem in Hpar.
    destruct (heap !! parent pos) as [par'|] eqn:Hlook; [|discriminate].
    injection Hpar as ->.
    assert (0 < pos)%nat as H0 by lia. pose proof (parent_lt pos H0) as Hlt.
    pose proof (below_parent _ _ Hbelow Hpos) as Hbelow'.
    pose proof (below_le _ _ Hbelow') as Hle.
    destruct (lt newitem par) eqn:Hcmp.
    + rewrite lt_key in Hcmp. apply Z.ltb_lt in Hcmp.
      unfold heapq.setitem in Hrun. case_decide as Hlen; [|discriminate].
      rewrite bind_Ok in Hrun. apply IH in Hrun; [done|done|..].
      * intros i x p Hi Hstart Hne Hx Hp.
        pose proof (parent_lt i Hi).
        rewrite list_lookup_insert in Hx, Hp.
        destruct (decide (pos = i ∧ (pos < length heap)%nat)) as [[<- _]|Hni].
        { injection Hx as <-. rewrite decide_False in Hp by lia.
          rewrite Hlook in Hp. injection Hp as <-. lia. }
        destruct (decide (pos = parent i ∧ (pos < length heap)%nat))
          as [[Heq _]|Hnp].
        { injection Hp as <-. by apply (Hd i x par). }
        assert (i ≠ pos) as Hne' by (intros ->; apply Hni; by split).
        by apply (Ha i x p).
      * intros c x Hc Hpc Hx. pose proof (parent_lt c Hc).
        rewrite list_lookup_insert in Hx.
        destruct (decide (pos = c ∧ (pos < length heap)%nat)) as [[<- _]|Hni].
        { injection Hx as <-. lia. }
        assert (c ≠ pos) as Hne' by (intros ->; apply Hni; by split).
        assert (key par ≤ key x); [|lia].
        apply (Ha c x par); [done|lia|done|done|by rewrite Hpc].
      * intros c x p Hstart Hc Hpc Hx Hp. pose proof (parent_lt c Hc).
        assert (0 < parent pos)%nat as H0' by lia.
        pose proof (parent_lt (parent pos) H0').
        rewrite list_lookup_insert in Hx, Hp.
        rewrite decide_False in Hp by lia.
        assert (key p ≤ key par) as Hppar.
        { pose proof (below_le _ _ (below_parent _ _ Hbelow' Hstart)).
          apply (Ha (parent pos) par p); [done|lia|lia|done|done]. }
        destruct (decide (pos = c ∧ (pos < length heap)%nat)) as [[<- _]|Hni].
        { by injection Hx as <-. }
        assert (c ≠ pos) as Hne' by (intros ->; apply Hni; by split).
        assert (key par ≤ key x); [|lia].
        apply (Ha c x par); [done|lia|done|done|by rewrite Hpc].
    + rewrite lt_key in Hcmp. apply Z.ltb_ge in Hcmp.
      injection Hrun as <- <-.
      apply heap_from_fill; [intros; by eapply Ha|exact Hb|].
      intros p _ _ Hp. rewrite Hlook in Hp. by injection Hp as <-.
  - injection Hrun as <- <-.
    apply heap_from_fill; [intros; by eapply Ha|exact Hb|].
    intros p H0 Hstart. pose proof (parent_lt pos H0). lia.
Qed.

Lemma _siftdown_heap heap startpos pos heap' :
  heapq._siftdown lt heap startpos pos = Ok heap' →
  below startpos pos →
  (∀ i x p, (0 < i)%nat → (startpos ≤ parent i)%nat → i ≠ pos →
            heap !! i = Some x → heap !! parent i = Some p → key p ≤ key x) →
  (∀ c, (0 < c)%nat → parent c = pos → heap !! c = None) →
  heap_from key startpos heap'.
Proof.
  unfold heapq._siftdown. intros Hrun Hbelow Ha Hleaf.
  destruct (heapq.getitem heap pos) as [newitem| |] eqn:Hitem;
    try discriminate.
  rewrite bind_Ok in Hrun.
  destruct (heapq._siftdown_loop lt pos heap startpos pos newitem)
    as [[heap1 pos1]| |] eqn:Hloop; try discriminate.
  rewrite bind_Ok in Hrun. unfold heapq.setitem in Hrun.
  case_decide; [|discriminate]. injection Hrun as <-.
  eapply _siftdown_loop_heap; [done..| |].
  - intros c x Hc Hpc Hx. by rewrite (Hleaf c) in Hx.
  - intros c x p _ Hc Hpc Hx. by rewrite (Hleaf c) in Hx.
Qed.

(** [_siftup]: while the hole goes down, all items sit well but the
    children of the hole. *)
Lemma _siftup_loop_heap fuel startpos : ∀ heap pos heap' pos',
  heapq._siftup_loop lt fuel heap (length heap) pos (2 * pos + 1)
    = Ok (heap', pos') →
  below startpos pos →
  (∀ i x p, (0 < i)%nat → (startpos ≤ parent i)%nat → parent i ≠ pos →
            heap !! i = Some x → heap !! parent i = Some p → key p ≤ key x) →
  (∀ c x p, (startpos < pos)%nat → (0 < c)%nat → parent c = pos →
            heap !! c = Some x → heap !! parent pos = Some p →
            key p ≤ key x) →
  length heap' = length heap ∧ below startpos pos'
  ∧ (length heap ≤ 2 * pos' + 1)%nat
  ∧ (∀ i x p, (0 < i)%nat → (startpos ≤ parent i)%nat → parent i ≠ pos' →
              heap' !! i = Some x → heap' !! parent i = Some p →
              key p ≤ key x).
Proof.
  induction fuel as [|fuel IH]; intros heap pos heap' pos' Hrun Hbelow HK HL;
    cbn [heapq._siftup_loop] in Hrun; case_decide as Hchild;
    try discriminate.
  { injection Hrun as <- <-. repeat split; [done|lia|done]. }
  2:{ injection Hrun as <- <-. repeat split; [done|lia|done]. }
  pose proof (below_le _ _ Hbelow) as Hle.
  set (childpos := (2 * pos + 1)%nat) in *.
  (* the smaller child *)
  assert (∃ c child,
    (c = childpos ∨ c = childpos + 1)%nat ∧ heap !! c = Some child
    ∧ (∀ i x, parent i = pos → (0 < i)%nat → heap !! i = Some x →
              key child ≤ key x)
    ∧ heapq._siftup_loop lt fuel (<[pos:=child]> heap) (length heap) c
        (2 * c + 1) = Ok (heap', pos')) as (c & child & Hc & Hlook & Hmin & Hrest).
  { destruct (lookup_lt_is_Some_2 heap childpos) as [c0 Hc0]; [done|].
    assert (∀ i, parent i = pos → (0 < i)%nat →
                 i = childpos ∨ i = (childpos + 1)%nat) as Hkids.
    { intros i Hpi Hi. apply parent_child in Hpi; [|done].
      unfold childpos. lia. }
    case_decide as Hright.
    - destruct (lookup_lt_is_Some_2 heap (childpos + 1)) as [r Hr]; [done|].
      rewrite (getitem_lookup _ _ _ Hc0), bind_Ok in Hrun.
      rewrite (getitem_lookup _ _ _ Hr), !bind_Ok in Hrun.
      rewrite lt_key in Hrun.
      destruct (key c0 <? key r) eqn:Hcmp; simpl in Hrun.
      + apply Z.ltb_lt in Hcmp.
        rewrite (getitem_lookup _ _ _ Hc0), bind_Ok in Hrun.
        rewrite setitem_lt, bind_Ok in Hrun by lia.
        exists childpos, c0. repeat split; [by left|done| |done].
        intros i x Hpi Hi Hx. destruct (Hkids i Hpi Hi) as [->| ->].
        * rewrite Hc0 in Hx. injection Hx as <-. lia.
        * rewrite Hr in Hx. injection Hx as <-. lia.
      + apply Z.ltb_ge in Hcmp.
        rewrite (getitem_lookup _ _ _ Hr), bind_Ok in Hrun.
        rewrite setitem_lt, bind_Ok in Hrun by lia.
        exists (childpos + 1)%nat, r. repeat split; [by right|done| |done].
        intros i x Hpi Hi Hx. destruct (Hkids i Hpi Hi) as [->| ->].
        * rewrite Hc0 in Hx. by injection Hx as <-.
        * rewrite Hr in Hx. injection Hx as <-. lia.
    - rewrite bind_Ok in Hrun.
      rewrite (getitem_lookup _ _ _ Hc0), bind_Ok in Hrun.
      rewrite setitem_lt, bind_Ok in Hrun by lia.
      exists childpos, c0. repeat split; [by left|done| |done].
      intros i x Hpi Hi Hx. destruct (Hkids i Hpi Hi) as [->| ->].
      * rewrite Hc0 in Hx. injection Hx as <-. lia.
      * apply lookup_lt_Some in Hx. lia.
  }
  assert (parent c = pos ∧ (0 < c)%nat ∧ (pos < c)%nat) as (Hpc & Hc0 & Hposc).
  { unfold childpos in Hc. split; [|lia]. apply parent_child; lia. }
  assert (pos < length heap)%nat as Hposlen by lia.
  pose proof (IH (<[pos:=child]> heap) c heap' pos') as IH'.
  rewrite length_insert in IH'. apply IH'; clear IH IH'; [done| | |].
  - apply below_child; [done|]. by rewrite Hpc.
  - intros i x p Hi Hstart Hne Hx Hp. pose proof (parent_lt i Hi).
    rewrite list_lookup_insert in Hx, Hp.
    destruct (decide (pos = parent i ∧ (pos < length heap)%nat))
      as [[Heq _]|Hnp].
    + injection Hp as <-. rewrite decide_False in Hx by lia.
      by apply (Hmin i x).
    + assert (parent i ≠ pos) as Hne' by (intros Heq; apply Hnp; by split).
      destruct (decide (pos = i ∧ (pos < length heap)%nat)) as [[<- _]|Hni].
      * injection Hx as <-.
        assert (startpos < pos)%nat as Hlt by lia.
        apply (HL c child p); auto.
      * by apply (HK i x p).
  - intros i x p _ Hi Hpi Hx Hp. pose proof (parent_lt i Hi).
    rewrite Hpc in Hp.
    rewrite list_lookup_insert_eq in Hp by done. injection Hp as <-.
    rewrite list_lookup_insert_ne in Hx by lia.
    apply (HK i x child); auto; [lia|lia|by rewrite Hpi].
Qed.

Lemma _siftup_heap heap pos heap' :
  heapq._siftup lt heap pos = Ok heap' →
  heap_from key (S pos) heap → heap_from key pos heap'.
Proof.
  unfold heapq._siftup. intros Hrun Hheap.
  destruct (heapq.getitem heap pos) as [newitem| |] eqn:Hitem;
    try discriminate.
  rewrite bind_Ok in Hrun.
  destruct (heapq._siftup_loop lt (length heap) heap (length heap) pos
              (2 * pos + 1)) as [[heap1 pos1]| |] eqn:Hloop;
    try discriminate.
  rewrite bind_Ok in Hrun.
  apply (_siftup_loop_heap _ pos) in Hloop
    as (Hlen & Hbelow & Hleaf & HK); [|constructor|..].
  - unfold heapq.setitem in Hrun. case_decide as Hpos1; [|discriminate].
    rewrite bind_Ok in Hrun.
    apply _siftdown_heap in Hrun; [done|done|..].
    + intros i x p Hi Hstart Hne Hx Hp.
      assert (parent i ≠ pos1) as Hne'.
      { intros Hpi. apply lookup_lt_Some in Hx.
        rewrite length_insert in Hx. apply parent_child in Hpi; lia. }
      rewrite list_lookup_insert_ne in Hx, Hp by done.
      by apply (HK i x p).
    + intros c Hc Hpc. apply lookup_ge_None_2. rewrite length_insert.
      apply parent_child in Hpc; lia.
  - intros i x p Hi Hstart Hne. apply Hheap; [done|lia].
  - intros c x p Hlt. lia.
Qed.

Lemma below_0 i : below 0 i.
Proof.
  induction i as [i IH] using lt_wf_ind. destruct i as [|i]; [constructor|].
  apply below_child; [lia|]. apply IH, parent_lt. lia.
Qed.

(** The first item of a heap is a least item. *)
Lemma heap_root_min heap r :
  is_heap key heap → heap !! 0%nat = Some r →
  ∀ x, x ∈ heap → key r ≤ key x.
Proof.
  intros Hheap Hr x [i Hx]%list_elem_of_lookup. revert x Hx.
  induction i as [i IH] using lt_wf_ind. intros x Hx.
  destruct i as [|i]; [rewrite Hr in Hx; by injection Hx as <-|].
  pose proof (parent_lt (S i)) as Hlt.
  destruct (lookup_lt_is_Some_2 heap (parent (S i))) as [p Hp].
  { apply lookup_lt_Some in Hx. lia. }
  assert (key r ≤ key p) by (apply (IH (parent (S i))); [lia|done]).
  assert (key p ≤ key x); [|lia].
  apply (Hheap (S i) x p); [lia|lia|done..].
Qed.

Lemma heappush_heap heap item heap' :
  is_heap key heap → heapq.heappush lt heap item = Ok heap' →
  is_heap key heap'.
Proof.
  unfold heapq.heappush. intros Hheap Hrun.
  rewrite length_app in Hrun. simpl in Hrun.
  replace (length heap + 1 - 1)%nat with (length heap) in Hrun by lia.
  apply _siftdown_heap in Hrun; [done|apply below_0|..].
  - intros i x p Hi _ Hne Hx Hp. pose proof (parent_lt i Hi).
    assert (i < length heap)%nat.
    { apply lookup_lt_Some in Hx. rewrite length_app in Hx. simpl in Hx. lia. }
    rewrite lookup_app_l in Hx, Hp by lia.
    apply (Hheap i x p); [done|lia|done..].
  - intros c Hc Hpc. apply lookup_ge_None_2. rewrite length_app. simpl.
    apply parent_child in Hpc; lia.
Qed.

Lemma heappop_heap heap item heap' :
  is_heap key heap → heapq.heappop lt heap = Ok (item, heap') →
  is_heap key heap' ∧ ∀ x, x ∈ heap → key item ≤ key x.
Proof.
  unfold heapq.heappop. intros Hheap Hrun.
  destruct (last heap) as [lastelt|] eqn:Hlast; [|discriminate].
  apply last_Some in Hlast as [init ->].
  rewrite length_app, take_app_length' in Hrun by (simpl; lia).
  destruct init as [|returnitem init].
  { injection Hrun as <- <-. split.
    - intros i x p Hi _ Hx. by destruct i.
    - by intros x ->%list_elem_of_singleton. }
  rewrite setitem_lt, bind_Ok in Hrun by (simpl; lia). simpl in Hrun.
  destruct (heapq._siftup lt (lastelt :: init) 0) as [heap1| |] eqn:Hsift;
    try discriminate.
  rewrite bind_Ok in Hrun. injection Hrun as <- <-. split.
  - apply _siftup_heap in Hsift; [done|].
    intros i x p Hi Hpar Hx Hp. pose proof (parent_lt i Hi).
    destruct i as [|i]; [lia|]. destruct (parent (S i)) as [|j] eqn:Hj; [lia|].
    simpl in Hx, Hp.
    apply (Hheap (S i) x p); [lia|lia|..].
    + simpl. apply lookup_app_l_Some. done.
    + rewrite Hj. simpl. apply lookup_app_l_Some. done.
  - by apply heap_root_min.
Qed.

Lemma foldl_bind_not_Ok {B C} (f : B → C → result B) (m : result B) l :
  (∀ b, m ≠ Ok b) →
  ∀ b, foldl (λ acc i, x ← acc; f x i) m l ≠ Ok b.
Proof.
  revert m. induction l as [|i l IH]; intros m Hm; [done|].
  simpl. apply IH. by destruct m as [b'| |]; [destruct (Hm b')|..].
Qed.

Lemma heapify_heap (l heap : list A) :
  heapq.heapify lt l = Ok heap → is_heap key heap.
Proof.
  unfold heapq.heapify.
  assert (heap_from key (length l / 2) l) as Hfrom.
  { intros i x p Hi Hpar Hx Hp. apply lookup_lt_Some in Hx.
    unfold parent in Hpar. lia. }
  revert Hfrom. generalize (length l / 2)%nat as k. intros k. revert l.
  induction k as [|k IH]; intros l Hfrom Hrun.
  { by injection Hrun as <-. }
  rewrite seq_S, reverse_snoc in Hrun. simpl in Hrun.
  destruct (heapq._siftup lt l k) as [l'| |] eqn:Hsift.
  - apply (IH l'); [|done]. by apply (_siftup_heap l k).
  - by apply foldl_bind_not_Ok in Hrun.
  - by apply foldl_bind_not_Ok in Hrun.
Qed.
End heap_order.

(** ** Tree construction is Huffman's greedy construction *)

Lemma Node__lt__freq a b : Node__lt__ a b = (freq a <? freq b).
Proof. reflexivity. Qed.

Lemma build_heap_heap frequency heap :
  build_heap frequency = Ok heap → is_heap freq heap.
Proof. apply (heapify_heap Node__lt__ freq Node__lt__freq). Qed.

Lemma huffman_merge_Permutation forest forest' root :
  huffman_merge forest root → forest ≡ₚ forest' → huffman_merge forest' root.
Proof.
  destruct 1 as [root|forest n1 n2 rest forest1 root H1 Hmin1 Hmin2 H2 Hrec];
    intros Hperm.
  - symmetry in Hperm. apply Permutation_singleton_r in Hperm as ->. constructor.
  - apply (huffman_merge_step _ n1 n2 rest forest1); try done.
    + by rewrite <- Hperm.
    + intros n Hn. apply Hmin1. by rewrite Hperm.
Qed.

(** The loop of [merge_nodes] on a heap: each round merges a least node
    and a least node of the rest. *)
Lemma merge_nodes_loop_greedy fuel : ∀ heap,
  is_heap freq heap → heap ≠ [] → (length heap ≤ S fuel)%nat →
  ∃ root, merge_nodes_loop fuel heap = Ok [root] ∧ huffman_merge heap root.
Proof.
  induction fuel as [|fuel IH]; intros heap Hheap Hne Hlen;
    cbn [merge_nodes_loop]; case_decide as Hlong; try lia.
  - destruct heap as [|root [|??]]; simpl in *; try done; try lia.
    exists root. split; [done|constructor].
  - destruct (heappop_spec Node__lt__ heap Hne) as (node1 & heap1 & Hpop1 & H1).
    destruct (heappop_heap _ _ Node__lt__freq _ _ _ Hheap Hpop1)
      as [Hheap1 Hmin1].
    rewrite Hpop1, bind_Ok.
    assert (length heap = S (length heap1)) as Hlen1 by (by rewrite H1).
    destruct (heappop_spec Node__lt__ heap1) as (node2 & heap2 & Hpop2 & H2).
    { intros ->. simpl in *. lia. }
    destruct (heappop_heap _ _ Node__lt__freq _ _ _ Hheap1 Hpop2)
      as [Hheap2 Hmin2].
    rewrite Hpop2, bind_Ok.
    assert (length heap1 = S (length heap2)) as Hlen2 by (by rewrite H2).
    set (merged := mkNode None (freq node1 + freq node2)
                          (Some node1) (Some node2)).
    destruct (heappush_spec Node__lt__ heap2 merged) as (heap3 & Hpush & H3).
    pose proof (heappush_heap _ _ Node__lt__freq _ _ _ Hheap2 Hpush) as Hheap3.
    rewrite Hpush, bind_Ok.
    assert (length heap3 = S (length heap2)) as Hlen3 by (by rewrite H3).
    destruct (IH heap3) as (root & -> & Hrec); [done| |lia|].
    { intros ->. simpl in *. lia. }
    exists root. split; [done|].
    apply (huffman_merge_step heap node1 node2 heap2 heap3); try done.
    + by rewrite H1, H2.
    + intros n Hn. apply Hmin2. by rewrite H2.
  - destruct heap as [|root [|??]]; simpl in *; try done; try lia.
    exists root. split; [done|constructor].
Qed.

Lemma merge_nodes_greedy heap :
  is_heap freq heap → heap ≠ [] →
  ∃ root, merge_nodes heap = Ok root ∧ huffman_merge heap root.
Proof.
  intros Hheap Hne. unfold merge_nodes.
  destruct (merge_nodes_loop_greedy (length heap) heap)
    as (root & -> & Hroot); [done|done|lia|].
  rewrite bind_Ok. by exists root.
Qed.

(** What the greedy construction keeps. *)
Lemma total_freq_Permutation forest forest' :
  forest ≡ₚ forest' → total_freq forest = total_freq forest'.
Proof. induction 1; simpl; lia. Qed.

Lemma huffman_merge_total_freq forest root :
  huffman_merge forest root → freq root = total_freq forest.
Proof.
  induction 1 as [root|forest n1 n2 rest forest' root H1 _ _ H2 _ IH].
  { simpl. lia. }
  rewrite IH, (total_freq_Permutation _ _ H2), (total_freq_Permutation _ _ H1).
  simpl. lia.
Qed.

Lemma huffman_merge_weighted forest root :
  huffman_merge forest root → Forall weighted forest → weighted root.
Proof.
  induction 1 as [root|forest n1 n2 rest forest' root H1 _ _ H2 _ IH];
    intros Hall.
  { by apply Forall_cons in Hall as [? _]. }
  rewrite H1 in Hall. apply Forall_cons in Hall as [Hn1 [Hn2 Hrest]%Forall_cons].
  apply IH. rewrite H2. constructor; [by constructor|done].
Qed.

Lemma huffman_merge_leaf_items forest root :
  huffman_merge forest root → leaf_items root ≡ₚ forest ≫= leaf_items.
Proof.
  induction 1 as [root|forest n1 n2 rest forest' root H1 _ _ H2 _ IH].
  { simpl. by rewrite app_nil_r. }
  rewrite IH, H2, H1. simpl. by rewrite <- app_assoc.
Qed.

Lemma leaf_nodes_weighted frequency : Forall weighted (leaf_nodes frequency).
Proof. apply Forall_fmap, Forall_forall. intros [c f] _. constructor. Qed.

Lemma leaf_nodes_leaf_items frequency :
  leaf_nodes frequency ≫= leaf_items = frequency.
Proof.
  induction frequency as [|[c f] d IH]; [done|].
  unfold leaf_nodes in *. rewrite fmap_cons, bind_cons, IH. done.
Qed.

Lemma leaf_nodes_total_freq frequency :
  total_freq (leaf_nodes frequency) = foldr Z.add 0 frequency.*2.
Proof.
  induction frequency as [|[c f] d IH]; [done|].
  unfold leaf_nodes in *. rewrite !fmap_cons. simpl. by rewrite IH.
Qed.

(** ** The frequency table counts *)

Lemma dict_get_set {V} (d : list (ascii * V)) k v k' default :
  dict_get (dict_set d k v) k' default
  = if decide (k' = k) then v else dict_get d k' default.
Proof.
  induction d as [|[k0 v0] d IH]; cbn [dict_set dict_get].
  { done. }
  destruct (decide (k = k0)) as [->|Hne]; cbn [dict_get].
  - by repeat case_decide.
  - rewrite IH. repeat case_decide; congruence.
Qed.

Lemma dict_get_elem_of {V} (d : list (ascii * V)) k v default :
  NoDup d.*1 → (k, v) ∈ d → dict_get d k default = v.
Proof.
  induction d as [|[k0 v0] d IH]; intros Hnd Hin.
  { by apply elem_of_nil in Hin. }
  cbn [fmap list_fmap fst] in Hnd. apply NoDup_cons in Hnd as [Hk0 Hnd].
  cbn [dict_get]. apply elem_of_cons in Hin as [[= -> ->]|Hin].
  { by rewrite decide_True. }
  rewrite decide_False; [by apply IH|].
  intros ->. apply Hk0, list_elem_of_fmap. by exists (k0, v).
Qed.

Lemma dict_set_total (d : list (ascii * Z)) k v :
  foldr Z.add 0 (dict_set d k v).*2
  = foldr Z.add 0 d.*2 - dict_get d k 0 + v.
Proof.
  induction d as [|[k0 v0] d IH]; cbn [dict_set dict_get].
  { simpl. lia. }
  destruct (decide (k = k0)) as [->|Hne]; rewrite !fmap_cons;
    cbn [foldr snd]; [|rewrite IH]; lia.
Qed.

Lemma occurrences_cons c a text :
  occurrences c (a :: text)
  = (if decide (c = a) then 1 else 0) + occurrences c text.
Proof.
  unfold occurrences. rewrite filter_cons.
  case_decide; simpl; lia.
Qed.

Lemma Counter_fold_count text : ∀ (d : list (ascii * Z)) c,
  dict_get (foldl (λ d c, dict_set d c (dict_get d c 0 + 1)) d text) c 0
  = dict_get d c 0 + occurrences c text.
Proof.
  induction text as [|a text IH]; intros d c.
  { unfold occurrences. simpl. lia. }
  cbn [foldl]. rewrite IH, dict_get_set, occurrences_cons.
  case_decide; subst; lia.
Qed.

Lemma Counter_fold_total text : ∀ d : list (ascii * Z),
  foldr Z.add 0 (foldl (λ d c, dict_set d c (dict_get d c 0 + 1)) d text).*2
  = foldr Z.add 0 d.*2 + Z.of_nat (length text).
Proof.
  induction text as [|a text IH]; intros d.
  { simpl. lia. }
  cbn [foldl]. rewrite IH, dict_set_total. simpl length. lia.
Qed.

Lemma occurrences_pos c text : c ∈ text → 0 < occurrences c text.
Proof.
  intros Hc. unfold occurrences.
  assert (c ∈ filter (c =.) text) as Hin by (by apply list_elem_of_filter).
  destruct (filter (c =.) text); [by apply elem_of_nil in Hin|simpl; lia].
Qed.

Lemma Counter_entry_count text c f :
  (c, f) ∈ Counter text → f = occurrences c text.
Proof.
  intros Hin. destruct (Counter_keys text) as [Hnd _].
  rewrite <- (dict_get_elem_of (Counter text) c f 0) by done.
  unfold Counter. rewrite Counter_fold_count. simpl. lia.
Qed.

Lemma Counter_total text :
  foldr Z.add 0 (Counter text).*2 = Z.of_nat (length text).
Proof. unfold Counter. by rewrite Counter_fold_total. Qed.

(** X1: the frequency table has one entry for each distinct symbol of
    the text; the value of an entry is the number of occurrences of its
    symbol, above 0; looking up any other symbol gives 0; the values add
    up to the length of the text. *)
Theorem build_frequency_dict_counts text :
  let frequency := build_frequency_dict text in
  NoDup frequency.*1
  ∧ (∀ c, c ∈ frequency.*1 ↔ c ∈ text)
  ∧ (∀ c, dict_get frequency c 0 = occurrences c text)
  ∧ (∀ c f, (c, f) ∈ frequency → f = occurrences c text ∧ 0 < f)
  ∧ foldr Z.add 0 frequency.*2 = Z.of_nat (length text).
Proof.
  unfold build_frequency_dict. destruct (Counter_keys text) as [Hnd Hel].
  split; [done|]. split; [done|]. split; [|split].
  - intros c. unfold Counter. rewrite Counter_fold_count. simpl. lia.
  - intros c f Hin. split; [by apply Counter_entry_count|].
    rewrite (Counter_entry_count text c f Hin).
    apply occurrences_pos, Hel, list_elem_of_fmap. by exists (c, f).
  - apply Counter_total.
Qed.

(** ** The tree of [compress] *)

Lemma compress_root self text b root :
  (compress self text).1 = Ok (b, root) →
  (heap ← build_heap (build_frequency_dict text); merge_nodes heap) = Ok root.
Proof.
  unfold compress. cbv zeta.
  destruct (build_heap (build_frequency_dict text) ≫= _) as [root'| |];
    [|discriminate..].
  cbn [fst]. intros Hrun. f_equal.
  destruct (get_encoded_text _ text) as [e| |]; [|discriminate..].
  rewrite bind_Ok in Hrun.
  destruct (pack_bytes _) as [b'| |]; [|discriminate..].
  rewrite bind_Ok in Hrun. by injection Hrun.
Qed.

(** X2: [build_heap] makes one leaf for each entry of the table and
    arranges them in heap order: no node has a smaller frequency than the
    node at its parent position, so the first node has least frequency. *)
Theorem build_heap_is_heap frequency :
  ∃ heap,
    build_heap frequency = Ok heap
    ∧ heap ≡ₚ leaf_nodes frequency
    ∧ is_heap freq heap
    ∧ (∀ first n, heap !! 0%nat = Some first → n ∈ heap →
                  freq first ≤ freq n).
Proof.
  unfold build_heap.
  destruct (heapify_spec Node__lt__ (leaf_nodes frequency))
    as (heap & Hrun & Hperm).
  pose proof (build_heap_heap frequency heap Hrun) as Hheap.
  exists heap. repeat split; try done.
  intros first n Hfirst. by apply heap_root_min.
Qed.

(** The tree of a table that is not empty comes from the greedy
    construction on its leaves. *)
Lemma tree_greedy frequency :
  frequency ≠ [] →
  ∃ root,
    (heap ← build_heap frequency; merge_nodes heap) = Ok root
    ∧ huffman_merge (leaf_nodes frequency) root.
Proof.
  intros Hne. unfold build_heap.
  destruct (heapify_spec Node__lt__ (leaf_nodes frequency))
    as (heap & Hrun & Hperm).
  pose proof (build_heap_heap frequency heap Hrun) as Hheap.
  fold (leaf_nodes frequency). rewrite Hrun, bind_Ok.
  destruct (merge_nodes_greedy heap Hheap) as (root & -> & Hmerge).
  { intros ->. apply Permutation_nil_l in Hperm.
    unfold leaf_nodes in Hperm. symmetry in Hperm.
    by apply fmap_nil_inv in Hperm. }
  exists root. split; [done|]. by apply (huffman_merge_Permutation heap).
Qed.

Lemma build_frequency_dict_nonempty text :
  text ≠ [] → build_frequency_dict text ≠ [].
Proof.
  destruct text as [|c text]; [done|]. intros _ Hnil.
  destruct (Counter_keys (c :: text)) as [_ Hel].
  assert (c ∈ (Counter (c :: text)).*1) as Hin by (apply Hel; left).
  unfold build_frequency_dict in Hnil. rewrite Hnil in Hin.
  by apply elem_of_nil in Hin.
Qed.

(** X3: the tree that [compress] returns is the result of Huffman's
    greedy construction on the leaves of the frequency table: each round
    merges a node of least frequency, which goes to the left, with a node
    of least frequency among the others, which goes to the right. *)
Theorem compress_huffman_merge self text :
  text ≠ [] →
  ∃ b root,
    (compress self text).1 = Ok (b, root)
    ∧ huffman_merge (leaf_nodes (build_frequency_dict text)) root.
Proof.
  intros Htext.
  destruct (compress_spec self text Htext) as (b & root & Hc & _).
  exists b, root. rewrite Hc. split; [done|].
  apply (f_equal fst) in Hc. apply compress_root in Hc.
  destruct (tree_greedy (build_frequency_dict text))
    as (root' & Hroot' & Hmerge); [by apply build_frequency_dict_nonempty|].
  rewrite Hroot' in Hc. by injection Hc as <-.
Qed.

Lemma compress_huffman_merge_witness :
  py "aabbbcc" ≠ []
  ∧ ∃ b root,
      (compress __init__ (py "aabbbcc")).1 = Ok (b, root)
      ∧ huffman_merge (leaf_nodes (build_frequency_dict (py "aabbbcc"))) root.
Proof.
  split; [discriminate|].
  apply (compress_huffman_merge __init__ (py "aabbbcc")). discriminate.
Defined.

(** X4: in the tree that [compress] returns, every merged node carries
    the sum of the frequencies of its children, the leaves carry the
    entries of the frequency table (each symbol with its number of
    occurrences), and the root carries the length of the text. *)
Theorem compress_tree_weights self text :
  text ≠ [] →
  ∃ b root,
    (compress self text).1 = Ok (b, root)
    ∧ weighted root
    ∧ leaf_items root ≡ₚ build_frequency_dict text
    ∧ (∀ c f, (c, f) ∈ leaf_items root → f = occurrences c text)
    ∧ freq root = Z.of_nat (length text).
Proof.
  intros Htext.
  destruct (compress_spec self text Htext) as (b & root & Hc & _).
  exists b, root. rewrite Hc. split; [done|].
  apply (f_equal fst) in Hc. apply compress_root in Hc.
  destruct (tree_greedy (build_frequency_dict text))
    as (root' & Hroot' & Hm); [by apply build_frequency_dict_nonempty|].
  rewrite Hroot' in Hc. injection Hc as ->.
  pose proof (huffman_merge_leaf_items _ _ Hm) as Hitems.
  rewrite leaf_nodes_leaf_items in Hitems.
  repeat split; try done.
  - apply (huffman_merge_weighted _ _ Hm), leaf_nodes_weighted.
  - intros c f Hin. rewrite Hitems in Hin. by apply Counter_entry_count.
  - rewrite (huffman_merge_total_freq _ _ Hm), leaf_nodes_total_freq.
    apply Counter_total.
Qed.

Lemma compress_tree_weights_witness :
  py "aabbbcc" ≠ []
  ∧ ∃ b root,
      (compress __init__ (py "aabbbcc")).1 = Ok (b, root)
      ∧ weighted root
      ∧ leaf_items root ≡ₚ build_frequency_dict (py "aabbbcc")
      ∧ (∀ c f, (c, f) ∈ leaf_items root → f = occurrences c (py "aabbbcc"))
      ∧ freq root = Z.of_nat (length (py "aabbbcc")).
Proof.
  split; [discriminate|].
  apply (compress_tree_weights __init__ (py "aabbbcc")). discriminate.
Defined.

(** ** The code table on any instance *)

Lemma huffman_tree_leaves_nonempty root :
  huffman_tree root → (0 < length (leaves root))%nat.
Proof.
  induction 1 as [c f|f l r _ IHl _ IHr]; [simpl; lia|].
  rewrite leaves_merged, length_app. lia.
Qed.

Lemma leaf_path_length root c p :
  huffman_tree root → leaf_path root c p →
  (length p < length (leaves root))%nat.
Proof.
  intros Hwf. revert c p.
  induction Hwf as [c f|f l r Hl IHl Hr IHr]; intros c' p Hp.
  { inversion Hp; subst. simpl. lia. }
  rewrite leaves_merged, length_app.
  pose proof (huffman_tree_leaves_nonempty l Hl).
  pose proof (huffman_tree_leaves_nonempty r Hr).
  inversion Hp; subst; simpl.
  - match goal with H : leaf_path l _ _ |- _ => apply IHl in H end. lia.
  - match goal with H : leaf_path r _ _ |- _ => apply IHr in H end. lia.
Qed.

(** X5: after [compress], whatever tables the instance had, the code of
    a symbol of the text is a string of '0' and '1', the path from the
    root to the leaf of the symbol; it is shorter than the number of
    distinct symbols, and not empty when the text has two distinct
    symbols; and among the symbols of the text, no code is a prefix of
    the code of another symbol. *)
Theorem code_table_any_state self text :
  text ≠ [] →
  ∃ b root self',
    compress self text = (Ok (b, root), self')
    ∧ (∀ c, c ∈ text →
         ∃ p, codes self' !! c = Some p ∧ leaf_path root c p
              ∧ Forall is_bit p
              ∧ (length p < length (build_frequency_dict text))%nat
              ∧ (two_symbols text → p ≠ []))
    ∧ (∀ c1 c2 p1 p2, c1 ∈ text → c2 ∈ text →
         codes self' !! c1 = Some p1 → codes self' !! c2 = Some p2 →
         p1 `prefix_of` p2 → c1 = c2).
Proof.
  intros Htext.
  destruct (compress_spec self text Htext)
    as (b & root & Hc & Hwf & Hnd & Hel & Hmerged & _).
  exists b, root, (build_codes self root). split; [done|].
  assert (length (leaves root) = length (build_frequency_dict text)) as Hlen.
  { destruct (Counter_keys text) as [Hnd' Hel']. unfold build_frequency_dict.
    rewrite <- (length_fmap fst (Counter text)).
    apply Permutation_length, NoDup_Permutation; [done..|].
    intros c. by rewrite Hel, Hel'. }
  assert (∀ c p, c ∈ text → codes (build_codes self root) !! c = Some p →
                 leaf_path root c p) as Hpath.
  { intros c p [p' Hp']%Hel%leaves_leaf_path Hp.
    rewrite (build_codes_codes self root c p') in Hp by done.
    by injection Hp as <-. }
  split.
  - intros c Hin. apply Hel, leaves_leaf_path in Hin as [p Hp].
    exists p. repeat split; try done.
    + by apply build_codes_codes.
    + by eapply leaf_path_bits.
    + rewrite <- Hlen. by apply (leaf_path_length root c).
    + intros Htwo%Hmerged ->. inversion Hp; subst. discriminate.
  - intros c1 c2 p1 p2 Hc1 Hc2 H1 H2 Hpre.
    apply Hpath in H1, H2; try done.
    by destruct (leaf_path_prefix root Hwf c1 p1 c2 p2).
Qed.

Lemma code_table_any_state_witness :
  py "aabbbcc" ≠ []
  ∧ ∃ b root self',
      compress (compress __init__ (py "ab")).2 (py "aabbbcc")
      = (Ok (b, root), self')
      ∧ (∀ c, c ∈ py "aabbbcc" →
           ∃ p, codes self' !! c = Some p ∧ leaf_path root c p
                ∧ Forall is_bit p
                ∧ (length p < length (build_frequency_dict (py "aabbbcc")))%nat
                ∧ (two_symbols (py "aabbbcc") → p ≠ []))
      ∧ (∀ c1 c2 p1 p2, c1 ∈ py "aabbbcc" → c2 ∈ py "aabbbcc" →
           codes self' !! c1 = Some p1 → codes self' !! c2 = Some p2 →
           p1 `prefix_of` p2 → c1 = c2).
Proof.
  split; [discriminate|].
  apply (code_table_any_state (compress __init__ (py "ab")).2 (py "aabbbcc")).
  discriminate.
Defined.

(** ** Rebuilding the tables *)

Lemma HuffmanCoding_eq self1 self2 :
  codes self1 = codes self2 → reverse_mapping self1 = reverse_mapping self2 →
  self1 = self2.
Proof. destruct self1, self2. simpl. by intros -> ->. Qed.

Lemma build_codes_twice self root :
  build_codes (build_codes self root) root = build_codes self root.
Proof.
  rewrite !build_codes_assign.
  destruct (foldl_assign_union (tree_codes root []) self) as [H1 H2].
  destruct (foldl_assign_union (tree_codes root [])
              (foldl assign self (tree_codes root []))) as [H3 H4].
  apply HuffmanCoding_eq.
  - by rewrite H3, H1, (assoc_L (∪)), (idemp_L (∪)).
  - by rewrite H4, H2, (assoc_L (∪)), (idemp_L (∪)).
Qed.

(** X6: on the tree that [compress] returns for a text that is not
    empty, [build_codes] puts the entries of the tree over the tables of
    any instance: an entry of the tree wins, any other entry stays; and
    building the codes of the same tree again changes nothing, which is
    the call that the decompress button makes before decoding. *)
Theorem build_codes_idempotent self0 text :
  text ≠ [] →
  ∃ b root,
    (compress self0 text).1 = Ok (b, root)
    ∧ ∀ self,
        (∀ c, codes (build_codes self root) !! c
              = match codes (build_codes __init__ root) !! c with
                | Some p => Some p
                | None => codes self !! c
                end)
        ∧ (∀ k, reverse_mapping (build_codes self root) !! k
                = match reverse_mapping (build_codes __init__ root) !! k with
                  | Some c => Some c
                  | None => reverse_mapping self !! k
                  end)
        ∧ build_codes (build_codes self root) root = build_codes self root.
Proof.
  intros Htext.
  destruct (compress_spec self0 text Htext) as (b & root & Hc & _).
  exists b, root. split; [by rewrite Hc|]. intros self.
  split; [|split; [|apply build_codes_twice]].
  - intros c. rewrite !build_codes_assign.
    destruct (foldl_assign_union (tree_codes root []) self) as [-> _].
    rewrite lookup_union.
    by destruct (codes (foldl assign __init__ (tree_codes root [])) !! c),
      (codes self !! c).
  - intros k. rewrite !build_codes_assign.
    destruct (foldl_assign_union (tree_codes root []) self) as [_ ->].
    rewrite lookup_union.
    by destruct
      (reverse_mapping (foldl assign __init__ (tree_codes root [])) !! k),
      (reverse_mapping self !! k).
Qed.

(** The tree of "aabbbcc", built again on the instance that compressed
    it. *)
Lemma build_codes_idempotent_witness :
  py "aabbbcc" ≠ []
  ∧ ∃ b root,
      (compress __init__ (py "aabbbcc")).1 = Ok (b, root)
      ∧ build_codes (compress __init__ (py "aabbbcc")).2 root
        = (compress __init__ (py "aabbbcc")).2.
Proof.
  split; [discriminate|].
  destruct (build_codes_idempotent __init__ (py "aabbbcc"))
    as (b & root & Hc & Hroot); [discriminate|].
  exists b, root. split; [exact Hc|].
  destruct (compress_spec __init__ (py "aabbbcc"))
    as (b' & root' & Hc' & _); [discriminate|].
  rewrite Hc' in Hc |- *. simpl in Hc |- *. injection Hc as _ <-.
  apply (Hroot __init__).
Defined.

(** X7: compressing the same text again on the instance gives the same
    buffer and tree and leaves the tables as the first call left them. *)
Theorem compress_twice self text :
  compress (compress self text).2 text = compress self text.
Proof.
  destruct text as [|a text]; [done|].
  destruct (compress_spec self (a :: text))
    as (b & root & Hc & _); [done|].
  assert ((compress self (a :: text)).2 = build_codes self root) as ->
    by (by rewrite Hc).
  destruct (compress_spec (build_codes self root) (a :: text))
    as (b' & root' & Hc' & _); [done|].
  assert ((compress (build_codes self root) (a :: text)).1
          = (compress self (a :: text)).1) as Hsame.
  { by rewrite compress_any_state, <- (compress_any_state self). }
  rewrite Hc', Hc in Hsame. simpl in Hsame. injection Hsame as -> ->.
  rewrite Hc', Hc. f_equal.
  by rewrite build_codes_twice.
Qed.

(** ** Errors of [get_encoded_text] *)

Lemma foldl_bind_Raise {B C} (f : B → C → result B) e l :
  foldl (λ acc i, x ← acc; f x i) (Raise e) l = Raise e.
Proof. induction l as [|i l IH]; [done|]. simpl. apply IH. Qed.

Lemma get_encoded_text_missing self text c :
  c ∈ text → codes self !! c = None →
  get_encoded_text self text = Raise KeyError.
Proof.
  unfold get_encoded_text. generalize (@nil ascii) as joined.
  induction text as [|a text IH]; intros joined Hin Hc.
  { by apply elem_of_nil in Hin. }
  cbn [foldl]. rewrite bind_Ok.
  destruct (codes self !! a) as [code|] eqn:Ha.
  - apply IH; [|done]. apply elem_of_cons in Hin as [->|Hin]; [|done].
    congruence.
  - apply (foldl_bind_Raise
             (λ joined char,
                match codes self !! char with
                | Some code => Ok (joined ++ code)
                | None => Raise KeyError
                end)).
Qed.

(** X8: [get_encoded_text] raises [KeyError] exactly when a symbol of the
    text has no code in the table, and otherwise returns the codes of the
    symbols of the text one after the other; on a new instance it raises
    on every text but the empty one. *)
Theorem get_encoded_text_KeyError self text :
  (get_encoded_text self text = Raise KeyError
   ↔ ∃ c, c ∈ text ∧ codes self !! c = None)
  ∧ (get_encoded_text self text = Ok (encoding self text)
     ↔ ∀ c, c ∈ text → is_Some (codes self !! c)).
Proof.
  destruct (decide (Forall (λ c, is_Some (codes self !! c)) text))
    as [Hall|Hnot].
  - rewrite Forall_forall in Hall.
    rewrite (get_encoded_text_spec self text Hall). split; split; try done.
    intros (c & Hc & Hnone). destruct (Hall c Hc) as [p Hp]. congruence.
  - apply not_Forall_Exists in Hnot; [|apply _].
    apply Exists_exists in Hnot as (c & Hc & Hnone).
    assert (codes self !! c = None) as Hnone'.
    { by apply eq_None_not_Some. }
    rewrite (get_encoded_text_missing self text c Hc Hnone').
    split; split; try done.
    + intros _. by exists c.
    + intros Hall. destruct (Hall c Hc) as [p Hp]. congruence.
Qed.

(** ** Padding, packing and their inverses *)

(** X9: [remove_padding] undoes [pad_encoded_text] on every string; the
    padded string is 9 to 16 characters longer, and its length is a
    multiple of 8. *)
Theorem pad_remove_padding encoded_text :
  remove_padding (pad_encoded_text encoded_text) = Ok encoded_text
  ∧ (length (pad_encoded_text encoded_text) `mod` 8 = 0)%nat
  ∧ (length encoded_text + 9 ≤ length (pad_encoded_text encoded_text)
     ≤ length encoded_text + 16)%nat.
Proof.
  split; [apply remove_padding_pad|].
  destruct (pad_encoded_text_length encoded_text) as [k Hk].
  split.
  - rewrite Hk. rewrite Nat.mul_comm. apply Nat.Div0.mod_mul.
  - clear k Hk. unfold pad_encoded_text.
    pose proof (extra_padding_range (length encoded_text)) as Hp.
    destruct (format_08b_spec _ Hp) as (Hlen & _).
    rewrite !length_app, Hlen, length_replicate. lia.
Qed.

Lemma byte_bits_inj x y : byte_bits x = byte_bits y → x = y.
Proof.
  intros Heq.
  destruct (byte_bits_spec x) as (_ & _ & Hx).
  destruct (byte_bits_spec y) as (_ & _ & Hy).
  rewrite Heq, Hy in Hx. injection Hx as Hv. unfold byte_value in Hv.
  apply (inj Z.of_N) in Hv.
  pose proof (Byte.of_to_N x) as Hox. rewrite <- Hv, Byte.of_to_N in Hox.
  by injection Hox.
Qed.

Lemma unpack_bits_inj b1 : ∀ b2, unpack_bits b1 = unpack_bits b2 → b1 = b2.
Proof.
  induction b1 as [|x b1 IH]; intros [|y b2] Heq; try done.
  - apply (f_equal length) in Heq. rewrite !unpack_bits_length in Heq.
    simpl in Heq. lia.
  - apply (f_equal length) in Heq. rewrite !unpack_bits_length in Heq.
    simpl in Heq. lia.
  - rewrite !unpack_bits_cons in Heq.
    destruct (byte_bits_spec x) as (Hx & _), (byte_bits_spec y) as (Hy & _).
    apply app_inj_1 in Heq as [Hhd Htl]; [|congruence].
    f_equal; [by apply byte_bits_inj|by apply IH].
Qed.

(** X10: the packing loop of [compress] and the unpacking loop of
    [decompress] are inverse to each other: unpacking any bytes and
    packing the bits gives the bytes back, and packing a string of '0'
    and '1' of [8 * k] characters gives [k] bytes that unpack to it. *)
Theorem pack_unpack_inverse :
  (∀ data, pack_bytes (unpack_bits data) = Ok data)
  ∧ (∀ s k, Forall is_bit s → length s = (8 * k)%nat →
            ∃ b, pack_bytes s = Ok b ∧ unpack_bits b = s ∧ length b = k).
Proof.
  split.
  - intros data.
    destruct (pack_bytes_spec (unpack_bits data) (length data))
      as (b & Hb & Hun);
      [apply unpack_bits_bits|apply unpack_bits_length|].
    rewrite Hb. f_equal. by apply unpack_bits_inj.
  - intros s k Hbits Hlen.
    destruct (pack_bytes_spec s k Hbits Hlen) as (b & Hb & Hun).
    exists b. repeat split; try done.
    apply (f_equal length) in Hun. rewrite unpack_bits_length in Hun. lia.
Qed.

(** ** Outcomes of [compress] and [decompress] *)

(** X11: whatever tables the instance has, [compress] returns a buffer
    and a tree on every text that is not empty, and raises [IndexError]
    on the empty text; it raises nothing else, in particular no
    [KeyError] from the table of codes. *)
Theorem compress_outcome self text :
  ((∃ b root, (compress self text).1 = Ok (b, root)) ↔ text ≠ [])
  ∧ (∀ e, (compress self text).1 = Raise e ↔ e = IndexError ∧ text = []).
Proof.
  destruct text as [|a text].
  - split; split.
    + by intros (b & root & H).
    + done.
    + simpl. intros [= <-]. done.
    + by intros [-> _].
  - destruct (compress_spec self (a :: text)) as (b & root & Hc & _); [done|].
    rewrite Hc. split; split; try done.
    + intros _. by exists b, root.
    + by intros [_ ?].
Qed.

(** X12: the buffer and the tree that [compress] returns depend on the
    text alone, not on the tables that earlier calls left in the
    instance. *)
Theorem compress_buffer_state_independent self1 self2 text :
  (compress self1 text).1 = (compress self2 text).1.
Proof. by rewrite compress_any_state, <- (compress_any_state self2). Qed.

(** X13: [decompress] raises exactly on the empty buffer, and then it is
    the [ValueError] of [int('', 2)] in [remove_padding]. *)
Theorem decompress_outcome self compressed_data :
  ((∃ decoded_text, decompress self compressed_data = Ok decoded_text)
   ↔ compressed_data ≠ [])
  ∧ (∀ e, decompress self compressed_data = Raise e
          ↔ e = ValueError ∧ compressed_data = []).
Proof.
  destruct compressed_data as [|hd tl].
  - split; split.
    + by intros (s & H).
    + done.
    + intros [= <-]. done.
    + by intros [-> _].
  - rewrite decompress_cons. split; split; try done.
    + intros _. by eexists.
    + by intros [_ ?].
Qed.

(** ** The size of the buffer *)

Lemma dict_set_weighted_sum g (d : list (ascii * Z)) k v :
  weighted_sum g (dict_set d k v)
  = weighted_sum g d - dict_get d k 0 * g k + v * g k.
Proof.
  induction d as [|[k0 v0] d IH]; cbn [dict_set dict_get].
  { simpl. lia. }
  destruct (decide (k = k0)) as [->|Hne].
  - unfold weighted_sum. cbn [foldr]. lia.
  - change (weighted_sum g ((k0, v0) :: dict_set d k v))
      with (v0 * g k0 + weighted_sum g (dict_set d k v)).
    change (weighted_sum g ((k0, v0) :: d))
      with (v0 * g k0 + weighted_sum g d).
    rewrite IH. lia.
Qed.

(** Summing over the text is summing over the table, each symbol as
    many times as it occurs. *)
Lemma Counter_fold_weighted_sum g text : ∀ d : list (ascii * Z),
  weighted_sum g (foldl (λ d c, dict_set d c (dict_get d c 0 + 1)) d text)
  = weighted_sum g d + foldr (λ c acc, g c + acc) 0 text.
Proof.
  induction text as [|a text IH]; intros d.
  { simpl. lia. }
  cbn [foldl foldr]. rewrite IH, dict_set_weighted_sum. lia.
Qed.

Lemma encoding_length self text :
  Z.of_nat (length (encoding self text))
  = foldr (λ c acc, code_length self c + acc) 0 text.
Proof.
  induction text as [|a text IH]; [done|].
  rewrite encoding_cons, length_app. cbn [foldr]. unfold code_length in *. lia.
Qed.

(** X14: the number of code bits of a text is the sum, over the
    frequency table, of the occurrences of each symbol times the length
    of its code; the buffer has one header byte, one byte for each eight
    code bits, and one more byte for the rest and the padding. *)
Theorem compress_size self text :
  text ≠ [] →
  ∃ b root self' encoded_text,
    compress self text = (Ok (b, root), self')
    ∧ get_encoded_text self' text = Ok encoded_text
    ∧ Z.of_nat (length encoded_text)
      = weighted_sum (code_length self') (build_frequency_dict text)
    ∧ Z.of_nat (length b) = Z.of_nat (length encoded_text) `div` 8 + 2.
Proof.
  intros Htext.
  destruct (compress_spec self text Htext)
    as (b & root & Hc & _ & _ & _ & _ & Henc & Hb).
  exists b, root, (build_codes self root),
    (encoding (build_codes self root) text).
  repeat split; try done.
  - rewrite encoding_length. unfold build_frequency_dict, Counter.
    rewrite Counter_fold_weighted_sum. simpl. lia.
  - apply (f_equal length) in Hb. rewrite unpack_bits_length in Hb.
    unfold pad_encoded_text in Hb.
    pose proof (extra_padding_range
                  (length (encoding (build_codes self root) text))) as Hp.
    destruct (format_08b_spec _ Hp) as (Hlen & _).
    rewrite !length_app, Hlen, length_replicate in Hb.
    pose proof (Z.div_mod
      (Z.of_nat (length (encoding (build_codes self root) text))) 8).
    lia.
Qed.

Lemma compress_size_witness :
  py "aabbbcc" ≠ []
  ∧ ∃ b root self' encoded_text,
      compress __init__ (py "aabbbcc") = (Ok (b, root), self')
      ∧ get_encoded_text self' (py "aabbbcc") = Ok encoded_text
      ∧ Z.of_nat (length encoded_text)
        = weighted_sum (code_length self')
                       (build_frequency_dict (py "aabbbcc"))
      ∧ Z.of_nat (length b) = Z.of_nat (length encoded_text) `div` 8 + 2.
Proof.
  split; [discriminate|].
  apply (compress_size __init__ (py "aabbbcc")). discriminate.
Defined.

(** ** The decode scan on any tables *)

(** The output so far only grows: the scan from a state with output
    [out] is the scan from the same candidate with no output, after
    [out]. *)
Lemma decode_scan_output self s : ∀ cand out,
  foldl (decode_step self) (cand, out) s
  = ((foldl (decode_step self) (cand, []) s).1,
     out ++ (foldl (decode_step self) (cand, []) s).2).
Proof.
  induction s as [|bit s IH]; intros cand out.
  { simpl. by rewrite app_nil_r. }
  cbn [foldl]. unfold decode_step at 2 4 6.
  destruct (reverse_mapping self !! (cand ++ [bit])) as [c|].
  - rewrite (IH [] (out ++ [c])), (IH [] ([] ++ [c])). simpl.
    by rewrite <- app_assoc.
  - by rewrite (IH _ out).
Qed.

(** X15: [decode_text] never returns more symbols than it reads bits,
    and every symbol it returns is a value of [reverse_mapping] under a
    key that is not empty; with an empty table it returns the empty
    string. *)
Theorem decode_text_bounds self encoded_text :
  (length (decode_text self encoded_text) ≤ length encoded_text)%nat
  ∧ (∀ c, c ∈ decode_text self encoded_text →
          ∃ k, k ≠ [] ∧ reverse_mapping self !! k = Some c)
  ∧ (reverse_mapping self = ∅ → decode_text self encoded_text = []).
Proof.
  unfold decode_text.
  assert ((length (decode_scan self encoded_text).1
           + length (decode_scan self encoded_text).2
           ≤ length encoded_text)%nat
          ∧ ∀ c, c ∈ (decode_scan self encoded_text).2 →
                 ∃ k, k ≠ [] ∧ reverse_mapping self !! k = Some c)
    as [Hlen Hval].
  { induction encoded_text as [|bit s [IHlen IHval]] using rev_ind.
    { split; [simpl; lia|]. intros c Hc. by apply elem_of_nil in Hc. }
    rewrite decode_scan_snoc, length_app.
    destruct (decode_scan self s) as [cand out]. simpl in *.
    destruct (reverse_mapping self !! (cand ++ [bit])) as [c|] eqn:Hc;
      simpl.
    - split; [rewrite length_app; simpl; lia|].
      intros c' [Hin| ->%list_elem_of_singleton]%elem_of_app; [by apply IHval|].
      exists (cand ++ [bit]). split; [|done]. by destruct cand.
    - split; [rewrite length_app; simpl; lia|done]. }
  repeat split; [lia|done|].
  intros Hempty.
  destruct (decode_scan self encoded_text).2 as [|c out]; [done|].
  destruct (Hval c) as (k & _ & Hk); [left|].
  by rewrite Hempty, lookup_empty in Hk.
Qed.

(** X16: when the scan of a first string ends with an empty candidate,
    decoding that string followed by a second one gives the two decoded
    texts one after the other. *)
Theorem decode_text_app self s1 s2 :
  (decode_scan self s1).1 = [] →
  decode_text self (s1 ++ s2) = decode_text self s1 ++ decode_text self s2.
Proof.
  intros Hcand. unfold decode_text, decode_scan in *.
  rewrite foldl_app.
  destruct (foldl (decode_step self) ([], []) s1) as [cand out] eqn:Hs1.
  simpl in Hcand. subst cand. by rewrite decode_scan_output.
Qed.

Lemma decode_text_app_witness :
  let self := (compress __init__ (py "aabbbcc")).2 in
  (decode_scan self (py "1110")).1 = []
  ∧ decode_text self (py "1110" ++ py "011")
    = decode_text self (py "1110") ++ decode_text self (py "011").
Proof.
  assert ((decode_scan (compress __init__ (py "aabbbcc")).2 (py "1110")).1
          = []) as H by (by vm_compute).
  split; [exact H|].
  exact (decode_text_app (compress __init__ (py "aabbbcc")).2
           (py "1110") (py "011") H).
Defined.

(** ** Decoding with the tables of an instance that was used before *)

(** X17: on an instance that was used before, the round trip holds for a
    text with two distinct symbols as soon as no key that
    [reverse_mapping] already had is a proper prefix of a code that the
    call assigns to a symbol of the text. *)
Theorem roundtrip_reused_instance self text :
  two_symbols text →
  (∀ k c p, is_Some (reverse_mapping self !! k) → k ≠ [] → c ∈ text →
            codes (compress self text).2 !! c = Some p →
            k `prefix_of` p → k = p) →
  ∃ b root,
    (compress self text).1 = Ok (b, root)
    ∧ decompress (compress self text).2 b = Ok text.
Proof.
  intros Htwo Hstale.
  destruct (compress_spec self text)
    as (b & root & Hc & Hwf & Hnd & Hel & Hmerged & _ & Hb).
  { destruct Htwo as (a & _ & Ha & _). intros ->. by apply elem_of_nil in Ha. }
  rewrite Hc in Hstale |- *. simpl in Hstale |- *.
  exists b, root. split; [done|].
  unfold decompress. rewrite Hb, remove_padding_pad, bind_Ok.
  unfold decode_text. rewrite decode_scan_encoding; [done|].
  intros c [p Hp]%Hel%leaves_leaf_path. exists p.
  apply build_codes_decodable_reused; auto.
  intros k c' p' Hk Hne Hp' Hpre.
  apply (Hstale k c' p'); try done.
  - apply Hel, leaves_leaf_path. by exists p'.
  - by apply build_codes_codes.
Qed.

(** After "ab" the instance has the keys "0" and "1"; "cd" gets the
    codes "1" and "0". *)
Lemma roundtrip_reused_instance_witness :
  let self := (compress __init__ (py "ab")).2 in
  two_symbols (py "cd")
  ∧ ∃ b root,
      (compress self (py "cd")).1 = Ok (b, root)
      ∧ decompress (compress self (py "cd")).2 b = Ok (py "cd").
Proof.
  assert (two_symbols (py "cd")) as Htwo.
  { exists "c"%char, "d"%char. repeat split; [left|right; left|done]. }
  split; [exact Htwo|].
  apply (roundtrip_reused_instance (compress __init__ (py "ab")).2 (py "cd")
           Htwo).
  intros k c p _ Hk Hc Hp Hpre.
  assert (length p = 1%nat) as Hlen.
  { apply elem_of_cons in Hc as [->|Hc];
      [|apply elem_of_cons in Hc as [->|Hc]; [|by apply elem_of_nil in Hc]];
      vm_compute in Hp; by injection Hp as <-. }
  destruct Hpre as [rest ->]. destruct k as [|x [|y k]]; [done| |].
  - destruct rest; [by rewrite app_nil_r|discriminate].
  - discriminate.
Defined.

(** X18: the tables that [compress] leaves on a new instance decode
    every text over the symbols of the compressed text, when that text
    has two distinct symbols: [get_encoded_text] succeeds, [decode_text]
    gives the text back, and different texts have different encodings. *)
Theorem tables_decode_alphabet text :
  two_symbols text →
  let self := (compress __init__ text).2 in
  (∀ other, (∀ c, c ∈ other → c ∈ text) →
     ∃ encoded_text,
       get_encoded_text self other = Ok encoded_text
       ∧ decode_scan self encoded_text = ([], other))
  ∧ (∀ t1 t2, (∀ c, c ∈ t1 → c ∈ text) → (∀ c, c ∈ t2 → c ∈ text) →
       get_encoded_text self t1 = get_encoded_text self t2 → t1 = t2).
Proof.
  intros Htwo self.
  destruct (compress_spec __init__ text)
    as (b & root & Hc & Hwf & Hnd & Hel & Hmerged & _).
  { destruct Htwo as (a & _ & Ha & _). intros ->. by apply elem_of_nil in Ha. }
  assert (self = build_codes __init__ root) as -> by (unfold self; by rewrite Hc).
  assert (∀ other, (∀ c, c ∈ other → c ∈ text) →
            get_encoded_text (build_codes __init__ root) other
            = Ok (encoding (build_codes __init__ root) other)
            ∧ decode_scan (build_codes __init__ root)
                (encoding (build_codes __init__ root) other) = ([], other))
    as Hall.
  { intros other Hsub.
    assert (∀ c, c ∈ other →
              ∃ p, decodable (build_codes __init__ root) c p) as Hdec.
    { intros c [p Hp]%Hsub%Hel%leaves_leaf_path. exists p.
      apply build_codes_decodable; auto. }
    split; [|by apply decode_scan_encoding].
    apply get_encoded_text_spec. intros c (p & Hp & _)%Hdec. by eexists. }
  split.
  - intros other Hsub. eexists. by apply Hall.
  - intros t1 t2 H1 H2 Heq.
    destruct (Hall t1 H1) as [He1 Hd1], (Hall t2 H2) as [He2 Hd2].
    rewrite He1, He2 in Heq. injection Heq as Heq.
    rewrite Heq, Hd2 in Hd1. by injection Hd1.
Qed.

Lemma tables_decode_alphabet_witness :
  two_symbols (py "aabbbcc")
  ∧ (let self := (compress __init__ (py "aabbbcc")).2 in
     (∀ other, (∀ c, c ∈ other → c ∈ py "aabbbcc") →
        ∃ encoded_text,
          get_encoded_text self other = Ok encoded_text
          ∧ decode_scan self encoded_text = ([], other))
     ∧ (∀ t1 t2, (∀ c, c ∈ t1 → c ∈ py "aabbbcc") →
          (∀ c, c ∈ t2 → c ∈ py "aabbbcc") →
          get_encoded_text self t1 = get_encoded_text self t2 → t1 = t2)).
Proof.
  assert (two_symbols (py "aabbbcc")) as Htwo.
  { exists "a"%char, "b"%char.
    repeat split; [left|right; right; left|done]. }
  split; [exact Htwo|]. exact (tables_decode_alphabet (py "aabbbcc") Htwo).
Defined.

(** ** The padding bits *)

(** X19: [decompress] does not read the bits that the header declares as
    padding: two buffers with the same header, the same number of bytes
    and the same bits before the padding decode to the same text. *)
Theorem decompress_ignores_padding self hd tl1 tl2 :
  length tl1 = length tl2 →
  take (Z.to_nat (8 * Z.of_nat (length tl1) - byte_value hd)) (unpack_bits tl1)
  = take (Z.to_nat (8 * Z.of_nat (length tl1) - byte_value hd))
         (unpack_bits tl2) →
  decompress self (hd :: tl1) = decompress self (hd :: tl2).
Proof.
  intros Hlen Hbits. rewrite !decompress_cons. unfold payload_bits.
  by rewrite <- Hlen, Hbits.
Qed.

(** The buffer of "aabbbcc" with its five padding bits set. *)
Lemma decompress_ignores_padding_witness :
  let self := (compress __init__ (py "aabbbcc")).2 in
  decompress self ["005"; "241"; "@"]%byte
  = decompress self ["005"; "241"; "_"]%byte.
Proof.
  apply (decompress_ignores_padding (compress __init__ (py "aabbbcc")).2
           "005"%byte ["241"; "@"]%byte ["241"; "_"]%byte);
    reflexivity.
Defined.

(** ** [remove_padding] on a string of bits *)

Lemma int2_digits_bits t : ∀ acc,
  Forall is_bit t → 0 ≤ acc → ∃ n, int2_digits acc t = Ok n ∧ 0 ≤ n.
Proof.
  induction t as [|c t IH]; intros acc Hbits Hacc; [by exists acc|].
  apply Forall_cons in Hbits as [Hc Hbits]. simpl.
  unfold digit2. destruct Hc as [-> | ->]; simpl; apply IH; auto; lia.
Qed.

(** X20: on a string whose first eight characters (or all of them, if
    fewer) are '0' or '1', [remove_padding] succeeds exactly when the
    string is not empty; it then returns a prefix of the string after
    these eight characters; on the empty string it raises the
    [ValueError] of [int('', 2)]. *)
Theorem remove_padding_outcome s :
  Forall is_bit (take 8 s) →
  ((∃ r, remove_padding s = Ok r) ↔ s ≠ [])
  ∧ (∀ r, remove_padding s = Ok r → r `prefix_of` drop 8 s)
  ∧ (∀ e, remove_padding s = Raise e ↔ e = ValueError ∧ s = []).
Proof.
  intros Hbits. destruct s as [|a s].
  { split; [split|split; [|split]].
    - by intros [r ?].
    - done.
    - done.
    - by intros [= <-].
    - by intros [-> _]. }
  unfold remove_padding. rewrite slice_upto by lia.
  change (Z.to_nat 8) with 8%nat.
  destruct (int2_digits_bits (take 8 (a :: s)) 0 Hbits)
    as (n & Hn & Hpos); [lia|].
  assert (int_2 (take 8 (a :: s)) = Ok n) as -> by (by rewrite <- Hn).
  rewrite bind_Ok.
  split; [split|split; [|split]].
  - done.
  - intros _. by eexists.
  - intros r [= <-]. destruct (decide (n = 0)) as [->|Hn0].
    + rewrite slice_strip_0 by lia. apply prefix_nil.
    + rewrite slice_strip by lia. change (Z.to_nat 8) with 8%nat.
      eexists. symmetry. apply take_drop.
  - done.
  - by intros [_ ?].
Qed.

(** The sixteen bits of the buffer [05 f1]: three bits are left. *)
Lemma remove_padding_outcome_witness :
  Forall is_bit (take 8 (py "0000010111110001"))
  ∧ (py "0000010111110001" ≠ [])
  ∧ ∃ r, remove_padding (py "0000010111110001") = Ok r.
Proof.
  assert (Forall is_bit (take 8 (py "0000010111110001"))) as Hbits.
  { apply (bool_decide_unpack _). by vm_compute. }
  assert (py "0000010111110001" ≠ []) as Hne by discriminate.
  split; [exact Hbits|]. split; [exact Hne|].
  exact (proj2 (proj1 (remove_padding_outcome (py "0000010111110001") Hbits))
           Hne).
Defined.

(** ** The scan walks the tree *)

Lemma merged_path_step root p bit :
  huffman_tree root → merged_path root p → is_bit bit →
  merged_path root (p ++ [bit]) ∨ ∃ c, leaf_path root c (p ++ [bit]).
Proof.
  intros Hwf Hp Hbit. induction Hp as [f l r|f l r p Hp IH|f l r p Hp IH].
  - inversion Hwf as [|? ? ? Hl Hr]; subst.
    destruct Hbit as [-> | ->]; simpl.
    + destruct Hl as [c fl|fl ll rl]; [right; exists c|left];
        repeat constructor.
    + destruct Hr as [c fr|fr lr rr]; [right; exists c|left];
        repeat constructor.
  - inversion Hwf as [|? ? ? Hl Hr]; subst.
    destruct (IH Hl) as [Hm|[c Hc]]; [left|right; exists c]; by constructor.
  - inversion Hwf as [|? ? ? Hl Hr]; subst.
    destruct (IH Hr) as [Hm|[c Hc]]; [left|right; exists c]; by constructor.
Qed.

Lemma merged_path_not_leaf root p c :
  merged_path root p → leaf_path root c p → False.
Proof.
  induction 1 as [f l r|f l r p Hp IH|f l r p Hp IH]; inversion 1; subst; auto.
Qed.

Lemma merged_path_length root p :
  huffman_tree root → merged_path root p →
  (length p + 2 ≤ length (leaves root))%nat.
Proof.
  intros Hwf Hp. induction Hp as [f l r|f l r p Hp IH|f l r p Hp IH];
    inversion Hwf as [|? ? ? Hl Hr]; subst;
    rewrite leaves_merged, length_app;
    pose proof (huffman_tree_leaves_nonempty l Hl);
    pose proof (huffman_tree_leaves_nonempty r Hr); simpl.
  - lia.
  - specialize (IH Hl). lia.
  - specialize (IH Hr). lia.
Qed.

(** X21: with the tables that [compress] leaves on a new instance for a
    text with two distinct symbols, the scan of any string of '0' and
    '1' never lets the candidate grow: what is left at the end has at
    least two characters fewer than there are distinct symbols, and all
    bits before it are decoded. *)
Theorem decode_scan_candidate_short text s :
  two_symbols text → Forall is_bit s →
  let self := (compress __init__ text).2 in
  (length (decode_scan self s).1 + 2
   ≤ length (build_frequency_dict text))%nat
  ∧ ∃ consumed,
      s = consumed ++ (decode_scan self s).1
      ∧ decode_scan self consumed = ([], decode_text self s).
Proof.
  intros Htwo Hbits self. split; [|apply decode_scan_split].
  destruct (compress_spec __init__ text)
    as (b & root & Hc & Hwf & Hnd & Hel & Hmerged & _).
  { destruct Htwo as (a & _ & Ha & _). intros ->. by apply elem_of_nil in Ha. }
  assert (self = build_codes __init__ root) as -> by (unfold self; by rewrite Hc).
  assert (length (leaves root) = length (build_frequency_dict text)) as <-.
  { destruct (Counter_keys text) as [Hnd' Hel']. unfold build_frequency_dict.
    rewrite <- (length_fmap fst (Counter text)).
    apply Permutation_length, NoDup_Permutation; [done..|].
    intros c. by rewrite Hel, Hel'. }
  apply merged_path_length; [done|].
  induction s as [|bit s IH] using rev_ind.
  { specialize (Hmerged Htwo). inversion Hwf; subst; [discriminate|].
    constructor. }
  apply Forall_app in Hbits as [Hbits [Hbit _]%Forall_cons].
  specialize (IH Hbits). rewrite decode_scan_snoc.
  destruct (decode_scan (build_codes __init__ root) s) as [cand out].
  simpl in *.
  destruct (merged_path_step root cand bit Hwf IH Hbit) as [Hm|[c Hleaf]].
  - destruct (reverse_mapping (build_codes __init__ root) !! (cand ++ [bit]))
      as [c|] eqn:Hlook; [|done].
    rewrite build_codes_assign in Hlook.
    apply foldl_assign_reverse_inv in Hlook as [Hin%tree_codes_leaf_path|?];
      [|done].
    destruct (merged_path_not_leaf _ _ _ Hm Hin).
  - rewrite (build_codes_reverse __init__ root c _ Hwf Hleaf). simpl.
    specialize (Hmerged Htwo). inversion Hwf; subst; [discriminate|].
    constructor.
Qed.

Lemma decode_scan_candidate_short_witness :
  two_symbols (py "aabbbcc") ∧ Forall is_bit (py "1101")
  ∧ (let self := (compress __init__ (py "aabbbcc")).2 in
     (length (decode_scan self (py "1101")).1 + 2
      ≤ length (build_frequency_dict (py "aabbbcc")))%nat
     ∧ ∃ consumed,
         py "1101" = consumed ++ (decode_scan self (py "1101")).1
         ∧ decode_scan self consumed = ([], decode_text self (py "1101"))).
Proof.
  assert (two_symbols (py "aabbbcc")) as Htwo.
  { exists "a"%char, "b"%char.
    repeat split; [left|right; right; left|done]. }
  assert (Forall is_bit (py "1101")) as Hbits
    by (by apply (bool_decide_unpack _)).
  split; [exact Htwo|]. split; [exact Hbits|].
  exact (decode_scan_candidate_short (py "aabbbcc") (py "1101") Htwo Hbits).
Defined.

(** ** The size of the tree and the two tables *)

Lemma huffman_tree_merged_nodes root :
  huffman_tree root → (merged_nodes root + 1 = length (leaves root))%nat.
Proof.
  induction 1 as [c f|f l r _ IHl _ IHr]; [done|].
  rewrite leaves_merged, length_app. simpl. lia.
Qed.

(** X22: the tree that [compress] returns has one leaf for each distinct
    symbol of the text and one merged node fewer than leaves; on a new
    instance the two tables are inverse to each other, with one entry
    for each distinct symbol. *)
Theorem compress_tree_and_tables text :
  text ≠ [] →
  ∃ b root self,
    compress __init__ text = (Ok (b, root), self)
    ∧ leaves root ≡ₚ (build_frequency_dict text).*1
    ∧ (merged_nodes root + 1 = length (build_frequency_dict text))%nat
    ∧ (∀ c p, codes self !! c = Some p ↔ reverse_mapping self !! p = Some c)
    ∧ (∀ c, is_Some (codes self !! c) ↔ c ∈ text).
Proof.
  intros Htext.
  destruct (compress_spec __init__ text Htext)
    as (b & root & Hc & Hwf & Hnd & Hel & _).
  exists b, root, (build_codes __init__ root). split; [done|].
  assert (leaves root ≡ₚ (build_frequency_dict text).*1) as Hperm.
  { destruct (Counter_keys text) as [Hnd' Hel']. unfold build_frequency_dict.
    apply NoDup_Permutation; [done..|]. intros c. by rewrite Hel, Hel'. }
  assert (∀ c p, codes (build_codes __init__ root) !! c = Some p
                 ↔ leaf_path root c p) as Hcodes.
  { intros c p. split; [|by apply build_codes_codes].
    rewrite build_codes_assign.
    intros [Hin|?]%foldl_assign_codes_inv; [|done].
    by apply tree_codes_leaf_path. }
  assert (∀ c p, reverse_mapping (build_codes __init__ root) !! p = Some c
                 ↔ leaf_path root c p) as Hrev.
  { intros c p. split; [|by apply build_codes_reverse].
    rewrite build_codes_assign.
    intros [Hin|?]%foldl_assign_reverse_inv; [|done].
    by apply tree_codes_leaf_path. }
  repeat split.
  - done.
  - rewrite <- (length_fmap fst), <- (Permutation_length Hperm).
    by apply huffman_tree_merged_nodes.
  - intros H. by apply Hrev, Hcodes.
  - intros H. by apply Hcodes, Hrev.
  - intros [p Hp%Hcodes]. apply Hel, leaves_leaf_path. by exists p.
  - intros [p Hp]%Hel%leaves_leaf_path. exists p. by apply Hcodes.
Qed.

Lemma compress_tree_and_tables_witness :
  py "aabbbcc" ≠ []
  ∧ ∃ b root self,
      compress __init__ (py "aabbbcc") = (Ok (b, root), self)
      ∧ leaves root ≡ₚ (build_frequency_dict (py "aabbbcc")).*1
      ∧ (merged_nodes root + 1
         = length (build_frequency_dict (py "aabbbcc")))%nat
      ∧ (∀ c p, codes self !! c = Some p ↔ reverse_mapping self !! p = Some c)
      ∧ (∀ c, is_Some (codes self !! c) ↔ c ∈ py "aabbbcc").
Proof.
  split; [discriminate|].
  apply (compress_tree_and_tables (py "aabbbcc")). discriminate.
Defined.

(** ** Round trip through the decompress button *)

(** X23: on a new instance, for a text with two distinct symbols,
    [decompress] gives the text back from the buffer of [compress], with
    the tables as [compress] left them and also after [build_codes] has
    been run again on the returned tree, as the decompress button does. *)
Theorem roundtrip_new_instance text :
  two_symbols text →
  ∃ b root self,
    compress __init__ text = (Ok (b, root), self)
    ∧ decompress self b = Ok text
    ∧ decompress (build_codes self root) b = Ok text.
Proof.
  intros Htwo.
  destruct (compress_spec __init__ text)
    as (b & root & Hc & Hwf & Hnd & Hel & Hmerged & _ & Hb).
  { destruct Htwo as (a & _ & Ha & _). intros ->. by apply elem_of_nil in Ha. }
  exists b, root, (build_codes __init__ root). split; [done|].
  assert (decompress (build_codes __init__ root) b = Ok text) as Hround.
  { unfold decompress. rewrite Hb, remove_padding_pad, bind_Ok.
    unfold decode_text. rewrite decode_scan_encoding; [done|].
    intros c [p Hp]%Hel%leaves_leaf_path. exists p.
    apply build_codes_decodable; auto. }
  split; [done|].
  by rewrite build_codes_twice.
Qed.

Lemma roundtrip_new_instance_witness :
  two_symbols (py "aabbbcc")
  ∧ ∃ b root self,
      compress __init__ (py "aabbbcc") = (Ok (b, root), self)
      ∧ decompress self b = Ok (py "aabbbcc")
      ∧ decompress (build_codes self root) b = Ok (py "aabbbcc").
Proof.
  assert (two_symbols (py "aabbbcc")) as Htwo.
  { exists "a"%char, "b"%char.
    repeat split; [left|right; right; left|done]. }
  split; [exact Htwo|]. exact (roundtrip_new_instance (py "aabbbcc") Htwo).
Defined.

(** ** Padding on any instance, and decoding a longer string *)

(** X24: whatever tables the instance holds, for a text that is not
    empty the first byte of the buffer is [8 - len(encoded_text) % 8],
    between 1 and 8; the other bytes hold the code bits followed by that
    many '0' bits; and [remove_padding] gives the code bits back. *)
Theorem padding_any_state self text :
  text ≠ [] →
  ∃ hd tl root self' encoded_text,
    compress self text = (Ok (hd :: tl, root), self')
    ∧ get_encoded_text self' text = Ok encoded_text
    ∧ byte_value hd = 8 - Z.of_nat (length encoded_text) `mod` 8
    ∧ 1 ≤ byte_value hd ≤ 8
    ∧ unpack_bits tl
      = encoded_text ++ replicate (Z.to_nat (byte_value hd)) "0"%char
    ∧ remove_padding (unpack_bits (hd :: tl)) = Ok encoded_text.
Proof.
  intros Htext.
  destruct (compress_spec self text Htext)
    as (b & root & Hc & _ & _ & _ & _ & Henc & Hb).
  set (self' := build_codes self root) in *.
  set (encoded_text := encoding self' text) in *.
  pose proof (extra_padding_range (length encoded_text)) as Hp.
  destruct (format_08b_spec _ Hp) as (Hlen & _ & Hint).
  destruct b as [|hd tl].
  { apply (f_equal length) in Hb. unfold pad_encoded_text in Hb.
    rewrite !length_app, Hlen in Hb. simpl in Hb. lia. }
  destruct (byte_bits_spec hd) as (Hlen' & _ & Hint').
  pose proof Hb as Hwhole.
  rewrite unpack_bits_cons in Hb. unfold pad_encoded_text in Hb.
  apply app_inj_1 in Hb as [Hhd Htl]; [|congruence].
  assert (byte_value hd = 8 - Z.of_nat (length encoded_text) `mod` 8) as Hval.
  { rewrite Hhd, Hint in Hint'. by injection Hint'. }
  exists hd, tl, root, self', encoded_text.
  split; [done|]. split; [done|]. split; [done|]. split; [lia|].
  split; [by rewrite Hval|].
  rewrite Hwhole. apply remove_padding_pad.
Qed.

Lemma padding_any_state_witness :
  py "aabbbcc" ≠ []
  ∧ ∃ hd tl root self' encoded_text,
      compress (compress __init__ (py "ab")).2 (py "aabbbcc")
      = (Ok (hd :: tl, root), self')
      ∧ get_encoded_text self' (py "aabbbcc") = Ok encoded_text
      ∧ byte_value hd = 8 - Z.of_nat (length encoded_text) `mod` 8
      ∧ 1 ≤ byte_value hd ≤ 8
      ∧ unpack_bits tl
        = encoded_text ++ replicate (Z.to_nat (byte_value hd)) "0"%char
      ∧ remove_padding (unpack_bits (hd :: tl)) = Ok encoded_text.
Proof.
  split; [discriminate|].
  apply (padding_any_state (compress __init__ (py "ab")).2 (py "aabbbcc")).
  discriminate.
Defined.

(** X25: reading more bits only adds symbols: the text decoded from a
    string is a prefix of the text decoded from any longer string that
    starts with it, and nothing that was decoded is taken back. *)
Theorem decode_text_prefix self s t :
  decode_text self s `prefix_of` decode_text self (s ++ t).
Proof.
  unfold decode_text, decode_scan. rewrite foldl_app.
  destruct (foldl (decode_step self) ([], []) s) as [cand out].
  rewrite decode_scan_output. simpl. by eexists.
Qed.
